(** * Scheduling of block updates (sched.c): a shallow embedding

    The C functions of sched.c are rendered as Rocq functions over
    explicit state.  Arrays indexed through [status->blocks + i] are
    lists read with stdpp's lookup and written with stdpp's insert; the
    process-wide [caughtsig] and the calls that leave the file
    ([time], [block_update], [json_print_status_line], [json_parse],
    [sleep], [fread]) go through a [world] record and an interface of
    external collaborators. *)

From Stdlib Require Import ZArith Lia Ascii String Sorted.
From stdpp Require Import base tactics option list numbers strings.

Local Open Scope Z_scope.

(** ** Data model (block.h) *)

(** A NUL byte, the terminator of C strings and the filler of [memset]. *)
Definition NUL : ascii := Ascii.zero.

(** Modelled from the spec: [struct click] of block.h, three short
    fixed-capacity text fields.  Each field is the whole [char] array. *)
Record click : Type := Click {
  button : list ascii;
  x : list ascii;
  y : list ascii
}.

(** Modelled from the spec: [struct block] of block.h.  The fields
    sched.c reads are kept under their C names; [full_text] stands for
    the display output the update collaborator fills in.  The [click]
    member is called [bclick] since the record type already uses that
    name.  [char *] members are the C string they point to. *)
Record block : Type := Block {
  name : string;
  instance : string;
  full_text : string;
  command : string;
  interval : Z;
  signal : Z;
  last_update : Z;
  bclick : click
}.

(** Modelled from the spec: [struct status_line] of block.h, the config
    array [blocks], the runtime array [updated_blocks] and their common
    length [num]. *)
Record status_line : Type := StatusLine {
  num : nat;
  blocks : list block;
  updated_blocks : list block
}.

Definition set_bclick (b : block) (c : click) : block :=
  Block (name b) (instance b) (full_text b) (command b) (interval b)
        (signal b) (last_update b) c.

Definition set_updated_blocks (s : status_line) (l : list block) : status_line :=
  StatusLine (num s) (blocks s) l.

(** Both arrays hold [num] blocks. *)
Definition wf_status (s : status_line) : Prop :=
  length (blocks s) = num s ∧ length (updated_blocks s) = num s.

Definition empty_click : click := Click [] [] [].

#[global] Instance block_inhabited : Inhabited block :=
  populate (Block "" "" "" "" 0 0 0 empty_click).

(** [*(arr + i)]: reading past the end is undefined in C; the model then
    reads the inhabitant above, and every theorem that reads an array
    assumes [wf_status]. *)
Definition at_index (arr : list block) (i : nat) : block := arr !!! i.

(** ** Control flow *)

(** [for (i = start; i < start + n; ++i) s = body i s]. *)
Fixpoint for_range {S : Type} (start n : nat) (body : nat → S → S) (s : S) : S :=
  match n with
  | O => s
  | Datatypes.S n' => for_range (Datatypes.S start) n' body (body start s)
  end.

(** ** longest_sleep *)

(** The bounds of [int], 32 bits wide. *)
Definition INT_MIN : Z := -2147483648.
Definition INT_MAX : Z := 2147483647.

(** Conversion to [int], as when an interval is assigned to [int time]
    or passed for an [int] parameter: the value modulo [2^32], taken
    between [INT_MIN] and [INT_MAX]. *)
Definition to_int (v : Z) : Z := (v + 2147483648) mod 4294967296 - 2147483648.

(** [a % b] on two [int]s.  C's [%] truncates towards zero, which is
    [Z.rem].  [INT_MIN % -1] overflows: C leaves it undefined and the
    process is killed by the arithmetic trap, as for a zero divisor;
    this is [None]. *)
Definition int_rem (a b : Z) : option Z :=
  if (b =? 0) || ((a =? INT_MIN) && (b =? -1)) then None
  else Some (Z.rem a b).

(** One turn of the loop body [a %= b, a ^= b, b ^= a, a ^= b]. *)
Definition gcd_step (ab : Z * Z) : option (Z * Z) :=
  let '(a, b) := ab in
  a ← int_rem a b;
  let a := Z.lxor a b in
  let b := Z.lxor b a in
  let a := Z.lxor a b in
  Some (a, b).

(** [while (b != 0) ...; return a], with the number of turns bounded by
    [fuel]; [None] when a turn is killed. *)
Fixpoint gcd_loop (fuel : nat) (a b : Z) : option Z :=
  match fuel with
  | O => Some a
  | Datatypes.S k =>
      if b =? 0 then Some a
      else '(a', b') ← gcd_step (a, b); gcd_loop k a' b'
  end.

(** Turns that always suffice: two turns at least halve [|b|] (see
    [gcd_loop_enough]). *)
Definition gcd_fuel (b : Z) : nat := Z.to_nat (2 * Z.log2 (Z.abs b) + 3).

(** The nested function [int gcd(int a, int b)] of [longest_sleep];
    its arguments are converted to [int] on entry. *)
Definition gcd (a b : Z) : option Z :=
  let a := to_int a in
  let b := to_int b in
  gcd_loop (gcd_fuel b) a b.

(** [longest_sleep] as it runs: [None] when a call of [gcd] is
    killed. *)
Definition longest_sleep_run (status : status_line) : option Z :=
  let time := 0 in
  time ←
    (if (0 <? num status)%nat then
       let time := to_int (interval (at_index (blocks status) 0)) in
       if (2 <=? num status)%nat then
         for_range 1 (num status - 1)
           (λ i time, time ← time;
                      gcd time (interval (at_index (blocks status) i)))
           (Some time)
       else Some time
     else Some time);
  Some (if 0 <? time then time else 5).

(** What [longest_sleep] returns.  A run that is killed returns
    nothing and no loop turn follows it; the model writes 0 for it.
    No run is killed on intervals that fit an [int] (see
    [longest_sleep_run_fold]). *)
Definition longest_sleep (status : status_line) : Z :=
  default 0 (longest_sleep_run status).

(** The GCD of a list of integers, the reference [longest_sleep] is
    compared with. *)
Definition gcd_list (l : list Z) : Z := foldr Z.gcd 0 l.

Definition nonzero_intervals (status : status_line) : list Z :=
  filter (λ v, v ≠ 0) (interval <$> blocks status).

(** ** The world outside sched.c *)

(** What the external collaborators are seen to do, in program order:
    [block_update] called on runtime block [i] holding [b],
    [json_print_status_line] called on a status line, [sleep] called
    with a duration. *)
Inductive event : Type :=
  | EvUpdate (i : nat) (b : block)
  | EvRender (s : status_line)
  | EvSleep (t : Z).

(** Process state the scheduler threads through its calls: the
    [caughtsig] variable, the number of [time(NULL)] readings taken so
    far, and the collaborator calls made so far. *)
Record world : Type := World {
  caughtsig : Z;
  ticks : nat;
  trace : list event
}.

Definition set_caughtsig (w : world) (v : Z) : world :=
  World v (ticks w) (trace w).

Definition emit (w : world) (e : event) : world :=
  World (caughtsig w) (ticks w) (trace w ++ [e]).

(** Platform constants and collaborators declared outside sched.c.
    [long_bits] is the width of [unsigned long] (and of [size_t]);
    [button_cap], [x_cap], [y_cap] are [sizeof] of the three arrays of
    [struct click]; [clock k] is what the [k]-th call of [time(NULL)]
    returns; [block_update] may depend on everything that happened
    before it; [json_parse buf key] is the span [(start, len)] that
    [json_parse] stores through its out-parameters. *)
Class Externals : Type := {
  long_bits : Z;
  button_cap : nat;
  x_cap : nat;
  y_cap : nat;
  SIGIO : Z;
  clock : nat → Z;
  block_update : list event → block → block;
  json_parse : list ascii → string → Z * Z
}.

Section Scheduler.
Context {E : Externals}.

(** ** Machine arithmetic *)

(** Conversion to [unsigned long]. *)
Definition wrap (v : Z) : Z := v mod 2 ^ long_bits.

(** The cast [(long)] of an [unsigned long] value. *)
Definition to_long (v : Z) : Z :=
  if v <? 2 ^ (long_bits - 1) then v else v - 2 ^ long_bits.

(** The macro [MIN]. *)
Definition MIN (a b : Z) : Z := if a <? b then a else b.

(** ** Memory *)

(** [memset(&click, 0, sizeof(struct click))]. *)
Definition zero_click : click :=
  Click (replicate button_cap NUL) (replicate x_cap NUL) (replicate y_cap NUL).

(** [buf[idx]] and [buf[idx] = v] at a signed offset.  Outside the
    buffer C leaves both undefined; the model reads [NUL] and writes
    nothing there. *)
Definition load (buf : list ascii) (idx : Z) : ascii :=
  if 0 <=? idx then default NUL (buf !! Z.to_nat idx) else NUL.

Definition store (buf : list ascii) (idx : Z) (v : ascii) : list ascii :=
  if 0 <=? idx then <[Z.to_nat idx := v]> buf else buf.

(** The [n] bytes at [buf + start]. *)
Definition bytes_at (buf : list ascii) (start : Z) (n : nat) : list ascii :=
  (λ k : nat, load buf (start + Z.of_nat k)) <$> seq 0 n.

(** [memcpy(dst, buf + start, n)] on a destination array. *)
Definition memcpy (dst : list ascii) (buf : list ascii) (start : Z) (n : nat)
  : list ascii :=
  bytes_at buf start n ++ drop n dst.

(** The bytes of the C string at [buf + start], up to its terminator. *)
Fixpoint until_NUL (l : list ascii) : list ascii :=
  match l with
  | [] => []
  | c :: l' => if Ascii.eqb c NUL then [] else c :: until_NUL l'
  end.

Definition cstr_at (buf : list ascii) (start : Z) : string :=
  if 0 <=? start
  then string_of_list_ascii (until_NUL (drop (Z.to_nat start) buf))
  else "".

(** [strcmp(a, b) == 0]. *)
Definition strcmp_eq0 (a b : string) : bool := String.eqb a b.

(** [*s != '\0'] for a C string. *)
Definition nonempty (s : string) : bool :=
  match s with EmptyString => false | String _ _ => true end.

(** [*click.button != '\0']. *)
Definition pending (c : click) : bool :=
  negb (Ascii.eqb (hd NUL (button c)) NUL).

(** ** need_update *)

(** [time(NULL)]. *)
Definition time (w : world) : Z * world :=
  (clock (ticks w), World (caughtsig w) (Datatypes.S (ticks w)) (trace w)).

(** The four locals that [need_update] computes and logs. *)
Record checks : Type := Checks {
  first_time : bool;
  outdated : bool;
  signaled : bool;
  clicked : bool
}.

Definition need_update_checks (w : world) (b : block) : checks * world :=
  let first_time := false in
  let outdated := false in
  let signaled := false in
  let clicked := false in
  let first_time := if last_update b =? 0 then true else first_time in
  let '(outdated, w) :=
    if negb (interval b =? 0) then
      let '(t, w) := time w in
      let now := wrap t in
      let next_update := wrap (last_update b + interval b) in
      (to_long (wrap (next_update - now)) <=? 0, w)
    else (outdated, w) in
  let '(signaled, clicked) :=
    if negb (caughtsig w =? 0) then
      (caughtsig w =? signal b, pending (bclick b))
    else (signaled, clicked) in
  (Checks first_time outdated signaled clicked, w).

Definition need_update (w : world) (b : block) : bool * world :=
  let '(c, w) := need_update_checks w b in
  (first_time c || outdated c || signaled c || clicked c, w).

(** ** update_status_line *)

(** The body of the loop over [i]. *)
Definition update_body (i : nat) (ws : world * status_line) : world * status_line :=
  let '(w, status) := ws in
  let config_block := at_index (blocks status) i in
  let updated_block := at_index (updated_blocks status) i in
  if negb (nonempty (command config_block)) then (w, status)
  else
    let '(needed, w) := need_update w updated_block in
    if needed then
      let click := bclick updated_block in
      let updated_block := config_block in
      let updated_block := set_bclick updated_block click in
      let updated_block' := block_update (trace w) updated_block in
      let w := emit w (EvUpdate i updated_block) in
      let updated_block := set_bclick updated_block' zero_click in
      (w, set_updated_blocks status (<[i := updated_block]> (updated_blocks status)))
    else (w, status).

Definition update_status_line (w : world) (status : status_line)
  : world * status_line :=
  let '(w, status) := for_range 0 (num status) update_body (w, status) in
  let w := if 0 <? caughtsig w then set_caughtsig w 0 else w in
  (w, status).

(** ** parse_click *)

(** What [parse_click] leaves behind: the buffer after its two stores,
    the offsets [name] and [instance] point to inside that buffer, and
    the click it filled. *)
Record parsed : Type := Parsed {
  p_json : list ascii;
  p_name : Z;
  p_instance : Z;
  p_click : click
}.

(** The byte count [MIN(len, sizeof(field) - 1)]: [len] is an [int]
    compared against a [size_t], so it is converted first. *)
Definition copy_len (len : Z) (cap : nat) : nat :=
  Z.to_nat (MIN (wrap len) (Z.of_nat cap - 1)).

Definition parse_click (json : list ascii) (click0 : click) : parsed :=
  let '(yst, ylen) := json_parse json "y" in
  let '(xst, xlen) := json_parse json "x" in
  let '(bst, blen) := json_parse json "button" in
  let '(ist, ilen) := json_parse json "instance" in
  let '(nst, nlen) := json_parse json "name" in
  let json := store json (nst + nlen) NUL in
  let json := store json (ist + ilen) NUL in
  let b := memcpy (button click0) json bst (copy_len blen button_cap) in
  let cx := memcpy (x click0) json xst (copy_len xlen x_cap) in
  let cy := memcpy (y click0) json yst (copy_len ylen y_cap) in
  Parsed json nst ist (Click b cx cy).

(** ** handle_click *)

(** [char json[1024] = { 0 }; fread(json, 1, sizeof(json) - 1, stdin)]
    when [input] is what standard input has to offer. *)
Definition fread_json (input : list ascii) : list ascii :=
  let got := take 1023 input in
  got ++ replicate (1024 - length got) NUL.

(** The scan [for (i = start; i < start + n; ++i)] that leaves at the
    first block equal to the click on name and instance. *)
Fixpoint find_block (start n : nat) (nm inst : string) (c : click)
    (status : status_line) : status_line :=
  match n with
  | O => status
  | Datatypes.S n' =>
      let block := at_index (updated_blocks status) start in
      if strcmp_eq0 (name block) nm && strcmp_eq0 (instance block) inst then
        set_updated_blocks status
          (<[start := set_bclick block c]> (updated_blocks status))
      else find_block (Datatypes.S start) n' nm inst c status
  end.

Definition read_click (input : list ascii) : parsed :=
  parse_click (fread_json input) zero_click.

(** The strings [name] and [instance] point to once [parse_click] has
    returned; both alias the buffer. *)
Definition click_name (input : list ascii) : string :=
  let p := read_click input in cstr_at (p_json p) (p_name p).

Definition click_instance (input : list ascii) : string :=
  let p := read_click input in cstr_at (p_json p) (p_instance p).

Definition handle_click (input : list ascii) (status : status_line) : status_line :=
  let p := read_click input in
  let nm := cstr_at (p_json p) (p_name p) in
  let inst := cstr_at (p_json p) (p_instance p) in
  if nonempty nm || nonempty inst then
    find_block 0 (num status) nm inst (p_click p) status
  else status.

(** ** sched_start *)

(** [handler]. *)
Definition handler (signum : Z) (w : world) : world := set_caughtsig w signum.

(** [json_print_status_line], seen from the scheduler. *)
Definition json_print_status_line (w : world) (status : status_line) : world :=
  emit w (EvRender status).

(** One call of [sleep] as the environment decides it: the signal
    caught while sleeping if there is one, the value [sleep] returns,
    and the bytes standard input holds afterwards. *)
Record wake : Type := Wake {
  delivered : option Z;
  unslept : Z;
  input : list ascii
}.

Definition sleep (sleeptime : Z) (wk : wake) (w : world) : Z * world :=
  let w := emit w (EvSleep sleeptime) in
  let w := match delivered wk with Some s => handler s w | None => w end in
  (unslept wk, w).

(** One turn of [while (1)]. *)
Definition sched_turn (sleeptime : Z) (ws : world * status_line) (wk : wake)
  : world * status_line :=
  let '(w, status) := ws in
  let '(w, status) := update_status_line w status in
  let w := json_print_status_line w status in
  let '(remaining, w) := sleep sleeptime wk w in
  if negb (remaining =? 0) then
    if caughtsig w =? SIGIO then (w, handle_click (input wk) status)
    else (w, status)
  else (w, status).

(** [sched_start], run for as many turns as [wakes] has entries; the C
    loop has no exit. *)
Definition sched_start (w : world) (status : status_line) (wakes : list wake)
  : world * status_line :=
  let sleeptime := longest_sleep status in
  foldl (sched_turn sleeptime) (w, status) wakes.

(** The state of a fresh process: no signal caught, nothing called. *)
Definition initial_world : world := World 0 0 [].

(** ** Vocabulary of the statements *)

(** No signal and no click take part in the decision on [b]. *)
Definition quiet (w : world) (b : block) : Prop :=
  caughtsig w = 0 ∨ (caughtsig w ≠ signal b ∧ pending (bclick b) = false).

(** The state in which the loop of [update_status_line] reaches
    index [i]. *)
Definition pass_state (w : world) (status : status_line) (i : nat)
  : world * status_line :=
  for_range 0 i update_body (w, status).

(** Whether the pass started from [(w, status)] calls [block_update]
    on block [i]: the block has a command and [need_update] says yes
    when the loop gets to it. *)
Definition dispatched (w : world) (status : status_line) (i : nat) : bool :=
  nonempty (command (at_index (blocks status) i)) &&
  fst (need_update (fst (pass_state w status i))
                   (at_index (updated_blocks status) i)).

(** The config block [i] carrying the click of runtime block [i]. *)
Definition dispatch_arg (status : status_line) (i : nat) : block :=
  set_bclick (at_index (blocks status) i)
             (bclick (at_index (updated_blocks status) i)).

(** Runtime block [i] as the pass leaves it. *)
Definition pass_result (w : world) (status : status_line) (i : nat) : block :=
  if dispatched w status i then
    set_bclick (block_update (trace (fst (pass_state w status i)))
                             (dispatch_arg status i)) zero_click
  else at_index (updated_blocks status) i.

(** The collaborator calls of the first [n] turns of the loop. *)
Definition pass_events (w : world) (status : status_line) (n : nat) : list event :=
  flat_map (λ i, if dispatched w status i
                 then [EvUpdate i (dispatch_arg status i)] else [])
           (seq 0 n).

(** What holds when the loop of [update_status_line] reaches index [n]. *)
Record pass_inv (w : world) (status : status_line) (n : nat)
    (ws : world * status_line) : Prop := PassInv {
  inv_blocks : blocks (snd ws) = blocks status;
  inv_num : num (snd ws) = num status;
  inv_sig : caughtsig (fst ws) = caughtsig w;
  inv_len : length (updated_blocks (snd ws)) = num status;
  inv_todo : ∀ j, (n ≤ j)%nat →
      updated_blocks (snd ws) !! j = updated_blocks status !! j;
  inv_done : ∀ j, (j < n)%nat →
      updated_blocks (snd ws) !! j = Some (pass_result w status j);
  inv_trace : trace (fst ws) = trace w ++ pass_events w status n
}.

(** Block [b] carries the name and the instance of the click read
    from [input]. *)
Definition click_matches (input : list ascii) (b : block) : Prop :=
  name b = click_name input ∧ instance b = click_instance input.


(** What a run of the scheduler may add to the trace: [block_update]
    only on blocks that have a command, the status line with its
    config untouched at every rendering, and the one sleep duration. *)
Definition run_events (status : status_line) (sleeptime : Z)
    (evs : list event) : Prop :=
  (∀ i arg, EvUpdate i arg ∈ evs →
     (i < num status)%nat ∧
     nonempty (command (at_index (blocks status) i)) = true) ∧
  (∀ s, EvRender s ∈ evs →
     wf_status s ∧ blocks s = blocks status ∧ num s = num status) ∧
  (∀ t, EvSleep t ∈ evs → t = sleeptime).

(** Every signal the environment delivers has a positive number. *)
Definition signals_positive (wakes : list wake) : Prop :=
  Forall (λ wk, ∀ s, delivered wk = Some s → 0 < s) wakes.

Definition is_render (e : event) : bool :=
  match e with EvRender _ => true | _ => false end.

(** The status lines handed to [json_print_status_line]. *)
Definition renders (tr : list event) : list event := List.filter is_render tr.

End Scheduler.

(** ** A concrete platform for running the model *)

Module Demo.

(** Index of the first occurrence of [pat] at or after [pos]. *)
Fixpoint find_sub (pat buf : list ascii) (pos : nat) : option nat :=
  match buf with
  | [] => None
  | _ :: rest =>
      if bool_decide (take (length pat) buf = pat) then Some pos
      else find_sub pat rest (Datatypes.S pos)
  end.

(** The double quote character. *)
Definition dquote : ascii := ascii_of_nat 34.

Definition value_end (c : ascii) : bool :=
  bool_decide (c = dquote ∨ c = ","%char ∨ c = "}"%char ∨ c = NUL).

Fixpoint value_len (l : list ascii) : nat :=
  match l with
  | [] => O
  | c :: l' => if value_end c then O else Datatypes.S (value_len l')
  end.

(** Modelled from the spec: the click-field extraction collaborator
    [json_parse] of json.c, which returns the span of the value of
    [key], quotes excluded, or the empty span [(0, 0)] when [key] is
    absent. *)
Definition json_parse (buf : list ascii) (key : string) : Z * Z :=
  let pat := dquote :: list_ascii_of_string key ++ [dquote; ":"%char] in
  match find_sub pat buf 0 with
  | None => (0, 0)
  | Some k =>
      let st := (k + length pat)%nat in
      let st := match drop st buf with
                | c :: _ => if Ascii.eqb c dquote then Datatypes.S st else st
                | [] => st
                end in
      (Z.of_nat st, Z.of_nat (value_len (drop st buf)))
  end.

(** An update collaborator that stamps the block with the time [2000]
    and shows its command as output. *)
Definition block_update (_ : list event) (b : block) : block :=
  Block (name b) (instance b) (command b) (command b) (interval b)
        (signal b) 2000 (bclick b).

(** A 64-bit platform whose clock reads [now] at every call. *)
Definition platform (now : Z) : Externals :=
  Build_Externals 64 2 5 5 29 (λ _, now) block_update json_parse.

Definition bytes (s : string) : list ascii := list_ascii_of_string s.

(** The bytes of a record written with ['] where it has a double
    quote. *)
Definition record (s : string) : list ascii :=
  (λ c, if Ascii.eqb c "'" then dquote else c) <$> list_ascii_of_string s.

Definition mk_block (nm inst cmd : string) (iv sg lu : Z) (c : click) : block :=
  Block nm inst "" cmd iv sg lu c.

Definition no_click : click := zero_click (E := platform 0).

Definition one_click : click :=
  Click (bytes "1" ++ [NUL]) (bytes "10" ++ replicate 3 NUL)
        (bytes "20" ++ replicate 3 NUL).

Definition mk_status (cfg run : list block) : status_line :=
  StatusLine (length cfg) cfg run.

(** The click of the end-to-end scenario. *)
Definition vol_click : list ascii :=
  record ",{'name':'vol','instance':'','button':'1','x':'10','y':'20'}".

(** Three blocks with intervals 4, 6 and 0, the third one refreshed
    by signal 10; the second one has no command. *)
Definition three_blocks : list block :=
  [ mk_block "vol" "master" "amixer" 4 0 0 no_click;
    mk_block "vol" "" "" 6 0 0 no_click;
    mk_block "sig" "" "uptime" 0 10 0 no_click ].

Definition three : status_line := mk_status three_blocks three_blocks.

(** A block that ran at time 1000 and is due every 10 seconds. *)
Definition due_block : block := mk_block "time" "" "date" 10 0 1000 no_click.

(** A block that ran at time 7, has no interval and holds a click. *)
Definition clicked_block : block := mk_block "vol" "" "amixer" 0 0 7 one_click.


(** Two sleeps: one cut short by signal 29 with a click to read, one
    slept to the end. *)
Definition two_wakes : list wake :=
  [ Wake (Some 29) 1 vol_click; Wake None 0 [] ].

End Demo.

(** ** Start-up: sched_use_signal, sched_event_stdin, sched_init *)

(** What the start-up code asks of the system, in program order.
    [Sigaction sig fl] is [sigaction(sig, &sa, NULL)] with
    [sa.sa_handler = handler], an empty mask and [sa.sa_flags = fl];
    [LogError errno msg] is [errorx(msg)] when [errno] is set and
    [error(msg)] otherwise. *)
Inductive syscall : Type :=
  | Sigaction (sig sa_flags : Z)
  | Isatty (fd : Z)
  | Getpid
  | FcntlSetown (fd pid : Z)
  | FcntlGetfl (fd : Z)
  | FcntlSetfl (fd arg : Z)
  | LogError (errno : bool) (msg : string).

(** The constants of the system headers and what each call returns;
    a result may depend on every call made before it. *)
Class Posix : Type := {
  SIGUSR1 : Z;
  SIGUSR2 : Z;
  SA_RESTART : Z;
  O_ASYNC : Z;
  O_NONBLOCK : Z;
  STDIN_FILENO : Z;
  sigaction_result : list syscall → Z → Z;
  isatty_result : list syscall → Z → Z;
  getpid_result : list syscall → Z;
  setown_result : list syscall → Z → Z → Z;
  getfl_result : list syscall → Z → Z;
  setfl_result : list syscall → Z → Z → Z
}.

(** Code that makes system calls: it maps the calls made so far to a
    result and the calls made by then. *)
Definition sys (A : Type) : Type := list syscall → A * list syscall.

#[global] Instance sys_ret : MRet sys := λ A (a : A) log, (a, log).

#[global] Instance sys_bind : MBind sys :=
  λ A B (k : A → sys B) (c : sys A) log, let '(a, log') := c log in k a log'.

Section Startup.
Context {E : Externals} {P : Posix}.

Definition sigaction (sig sa_flags : Z) : sys Z :=
  λ log, (sigaction_result log sig, log ++ [Sigaction sig sa_flags]).

Definition isatty (fd : Z) : sys Z :=
  λ log, (isatty_result log fd, log ++ [Isatty fd]).

Definition getpid : sys Z :=
  λ log, (getpid_result log, log ++ [Getpid]).

Definition fcntl_setown (fd pid : Z) : sys Z :=
  λ log, (setown_result log fd pid, log ++ [FcntlSetown fd pid]).

Definition fcntl_getfl (fd : Z) : sys Z :=
  λ log, (getfl_result log fd, log ++ [FcntlGetfl fd]).

Definition fcntl_setfl (fd arg : Z) : sys Z :=
  λ log, (setfl_result log fd arg, log ++ [FcntlSetfl fd arg]).

Definition errorx (msg : string) : sys unit :=
  λ log, (tt, log ++ [LogError true msg]).

Definition error (msg : string) : sys unit :=
  λ log, (tt, log ++ [LogError false msg]).

Definition sched_use_signal (sig : Z) : sys Z :=
  r ← sigaction sig SA_RESTART;
  if r =? -1 then
    _ ← errorx "sigaction"; mret 1
  else mret 0.

Definition sched_event_stdin : sys Z :=
  r ← sched_use_signal SIGIO;
  if negb (r =? 0) then
    _ ← error "failed to set SIGIO"; mret 1
  else
    pid ← getpid;
    r ← fcntl_setown STDIN_FILENO pid;
    if r =? -1 then
      _ ← error "failed to set process as owner for stdin"; mret 1
    else
      flags ← fcntl_getfl STDIN_FILENO;
      r ← fcntl_setfl STDIN_FILENO (Z.lor (Z.lor flags O_ASYNC) O_NONBLOCK);
      if r =? -1 then
        _ ← error "failed to enable I/O signaling for stdin"; mret 1
      else mret 0.

Definition sched_init : sys Z :=
  r ← sched_use_signal SIGUSR1;
  if negb (r =? 0) then
    _ ← error "failed to set SIGUSR1"; mret 1
  else
    r ← sched_use_signal SIGUSR2;
    if negb (r =? 0) then
      _ ← error "failed to set SIGUSR2"; mret 1
    else
      tty ← isatty STDIN_FILENO;
      if tty =? 0 then
        r ← sched_event_stdin;
        if negb (r =? 0) then
          _ ← error "failed to setup event I/O for stdin"; mret 1
        else mret 0
      else mret 0.

(** *** Vocabulary of the start-up statements *)

Definition is_error (c : syscall) : bool :=
  match c with LogError _ _ => true | _ => false end.

Definition is_fcntl (c : syscall) : bool :=
  match c with
  | FcntlSetown _ _ | FcntlGetfl _ | FcntlSetfl _ _ => true
  | _ => false
  end.

(** No call other than a report follows a report. *)
Fixpoint stops_at_error (log : list syscall) : bool :=
  match log with
  | [] => true
  | c :: rest =>
      if is_error c then forallb is_error rest else stops_at_error rest
  end.

(** The ways through [sched_init] from the calls [log0] made before
    it: the value returned and the calls added, under the results that
    lead there. *)
Inductive startup_path (log0 : list syscall) : Z → list syscall → Prop :=
  | path_usr1_fails :
      sigaction_result log0 SIGUSR1 = -1 →
      startup_path log0 1
        [ Sigaction SIGUSR1 SA_RESTART; LogError true "sigaction";
          LogError false "failed to set SIGUSR1" ]
  | path_usr2_fails :
      sigaction_result log0 SIGUSR1 ≠ -1 →
      sigaction_result (log0 ++ [Sigaction SIGUSR1 SA_RESTART]) SIGUSR2 = -1 →
      startup_path log0 1
        [ Sigaction SIGUSR1 SA_RESTART; Sigaction SIGUSR2 SA_RESTART;
          LogError true "sigaction"; LogError false "failed to set SIGUSR2" ]
  | path_terminal :
      let pre := [ Sigaction SIGUSR1 SA_RESTART; Sigaction SIGUSR2 SA_RESTART ] in
      isatty_result (log0 ++ pre) STDIN_FILENO ≠ 0 →
      startup_path log0 0 (pre ++ [Isatty STDIN_FILENO])
  | path_sigio_fails :
      let pre := [ Sigaction SIGUSR1 SA_RESTART; Sigaction SIGUSR2 SA_RESTART ] in
      isatty_result (log0 ++ pre) STDIN_FILENO = 0 →
      sigaction_result (log0 ++ pre ++ [Isatty STDIN_FILENO]) SIGIO = -1 →
      startup_path log0 1
        (pre ++ [ Isatty STDIN_FILENO; Sigaction SIGIO SA_RESTART;
                  LogError true "sigaction"; LogError false "failed to set SIGIO";
                  LogError false "failed to setup event I/O for stdin" ])
  | path_setown_fails :
      let pre := [ Sigaction SIGUSR1 SA_RESTART; Sigaction SIGUSR2 SA_RESTART;
                   Isatty STDIN_FILENO; Sigaction SIGIO SA_RESTART ] in
      let pid := getpid_result (log0 ++ pre) in
      isatty_result (log0 ++ take 2 pre) STDIN_FILENO = 0 →
      setown_result (log0 ++ pre ++ [Getpid]) STDIN_FILENO pid = -1 →
      startup_path log0 1
        (pre ++ [ Getpid; FcntlSetown STDIN_FILENO pid;
                  LogError false "failed to set process as owner for stdin";
                  LogError false "failed to setup event I/O for stdin" ])
  | path_setfl_fails :
      let pre := [ Sigaction SIGUSR1 SA_RESTART; Sigaction SIGUSR2 SA_RESTART;
                   Isatty STDIN_FILENO; Sigaction SIGIO SA_RESTART ] in
      let pid := getpid_result (log0 ++ pre) in
      let own := pre ++ [Getpid; FcntlSetown STDIN_FILENO pid] in
      let flags := getfl_result (log0 ++ own) STDIN_FILENO in
      let arg := Z.lor (Z.lor flags O_ASYNC) O_NONBLOCK in
      isatty_result (log0 ++ take 2 pre) STDIN_FILENO = 0 →
      setown_result (log0 ++ pre ++ [Getpid]) STDIN_FILENO pid ≠ -1 →
      setfl_result (log0 ++ own ++ [FcntlGetfl STDIN_FILENO]) STDIN_FILENO arg = -1 →
      startup_path log0 1
        (own ++ [ FcntlGetfl STDIN_FILENO; FcntlSetfl STDIN_FILENO arg;
                  LogError false "failed to enable I/O signaling for stdin";
                  LogError false "failed to setup event I/O for stdin" ])
  | path_ready :
      let pre := [ Sigaction SIGUSR1 SA_RESTART; Sigaction SIGUSR2 SA_RESTART;
                   Isatty STDIN_FILENO; Sigaction SIGIO SA_RESTART ] in
      let pid := getpid_result (log0 ++ pre) in
      let own := pre ++ [Getpid; FcntlSetown STDIN_FILENO pid] in
      let flags := getfl_result (log0 ++ own) STDIN_FILENO in
      let arg := Z.lor (Z.lor flags O_ASYNC) O_NONBLOCK in
      isatty_result (log0 ++ take 2 pre) STDIN_FILENO = 0 →
      setown_result (log0 ++ pre ++ [Getpid]) STDIN_FILENO pid ≠ -1 →
      setfl_result (log0 ++ own ++ [FcntlGetfl STDIN_FILENO]) STDIN_FILENO arg ≠ -1 →
      startup_path log0 0
        (own ++ [FcntlGetfl STDIN_FILENO; FcntlSetfl STDIN_FILENO arg]).

End Startup.

(** ** A concrete system for running the start-up code *)

Module DemoStartup.

(** The constants of a Linux system; every call succeeds, and [isatty]
    answers [tty]. *)
Definition linux (tty : Z) : Posix :=
  Build_Posix 10 12 268435456 8192 2048 0
    (λ _ _, 0) (λ _ _, tty) (λ _, 4242) (λ _ _ _, 0) (λ _ _, 2) (λ _ _ _, 0).

(** The same three blocks as [Demo.three] in another order. *)
Definition three_shuffled : status_line :=
  Demo.mk_status
    [ Demo.mk_block "sig" "" "uptime" 0 10 0 Demo.no_click;
      Demo.mk_block "vol" "master" "amixer" 4 0 0 Demo.no_click;
      Demo.mk_block "vol" "" "" 6 0 0 Demo.no_click ]
    [ Demo.mk_block "sig" "" "uptime" 0 10 0 Demo.no_click;
      Demo.mk_block "vol" "master" "amixer" 4 0 0 Demo.no_click;
      Demo.mk_block "vol" "" "" 6 0 0 Demo.no_click ].

(** A block without a command and a block refreshed by signal 10
    only, both having run at time 7. *)
Definition idle : status_line :=
  Demo.mk_status
    [ Demo.mk_block "sep" "" "" 0 0 0 Demo.no_click;
      Demo.mk_block "sig" "" "uptime" 0 10 0 Demo.no_click ]
    [ Demo.mk_block "sep" "" "" 0 0 7 Demo.no_click;
      Demo.mk_block "sig" "" "uptime" 0 10 7 Demo.no_click ].

(** Two blocks whose first interval, 4294967295, does not fit an
    [int]. *)
Definition wide : status_line :=
  Demo.mk_status
    [ Demo.mk_block "year" "" "date" 4294967295 0 0 Demo.no_click;
      Demo.mk_block "vol" "" "amixer" 4 0 0 Demo.no_click ]
    [ Demo.mk_block "year" "" "date" 4294967295 0 0 Demo.no_click;
      Demo.mk_block "vol" "" "amixer" 4 0 0 Demo.no_click ].

(** One block with the interval 3000000000. *)
Definition wide_alone : status_line :=
  Demo.mk_status
    [ Demo.mk_block "year" "" "date" 3000000000 0 0 Demo.no_click ]
    [ Demo.mk_block "year" "" "date" 3000000000 0 0 Demo.no_click ].

(** A click on the block ["vol"] / ["master"]. *)
Definition master_click : list ascii :=
  Demo.record ",{'name':'vol','instance':'master','button':'3','x':'7','y':'9'}".

(** A click record that carries neither name nor instance. *)
Definition nameless_click : list ascii :=
  Demo.record ",{'button':'1','x':'10','y':'20'}".

End DemoStartup.

(** ** Vocabulary of the further statements *)

(** The loop of [gcd] returns the greatest common divisor up to its
    sign. *)
Definition gcd_ok (a b : Z) : Prop :=
  ∃ g, gcd_loop (Datatypes.S (Z.abs_nat b)) a b = Some g ∧ Z.abs g = Z.gcd a b.

(** The indices on which [block_update] is called, in call order. *)
Definition update_indices (evs : list event) : list nat :=
  omap (λ e, match e with EvUpdate i _ => Some i | _ => None end) evs.

Definition is_sleep (e : event) : bool :=
  match e with EvSleep _ => true | _ => false end.

(** The calls of [sleep]. *)
Definition sleeps (tr : list event) : list event := List.filter is_sleep tr.

(** [b'] is [b] but for its click. *)
Definition same_but_click (b b' : block) : Prop :=
  b' = set_bclick b (bclick b').

(** ** Lemmas on longest_sleep *)

Lemma lxor_cancel_r r b : Z.lxor (Z.lxor r b) b = r.
Proof. by rewrite Z.lxor_assoc, Z.lxor_nilpotent, Z.lxor_0_r. Qed.

Lemma to_int_small v : INT_MIN ≤ v ≤ INT_MAX → to_int v = v.
Proof.
  unfold INT_MIN, INT_MAX, to_int. intros.
  rewrite Z.mod_small by lia. lia.
Qed.

Lemma to_int_range v : INT_MIN ≤ to_int v ≤ INT_MAX.
Proof.
  unfold INT_MIN, INT_MAX, to_int.
  pose proof (Z.mod_pos_bound (v + 2147483648) 4294967296 ltac:(lia)). lia.
Qed.

(** Where [%] is defined it is [Z.rem]. *)
Lemma int_rem_defined a b :
  b ≠ 0 → ¬ (a = INT_MIN ∧ b = -1) → int_rem a b = Some (Z.rem a b).
Proof.
  intros Hb Ht. unfold int_rem.
  destruct (Z.eqb_spec b 0); [done|]. cbn [orb].
  destruct (Z.eqb_spec a INT_MIN), (Z.eqb_spec b (-1)); cbn; tauto.
Qed.

Lemma int_rem_Some a b r : int_rem a b = Some r → r = Z.rem a b.
Proof. unfold int_rem. destruct (_ || _); congruence. Qed.

(** The three xor assignments exchange the remainder and [b]. *)
Lemma gcd_step_swap a b r : int_rem a b = Some r → gcd_step (a, b) = Some (b, r).
Proof.
  intros Hr. unfold gcd_step. rewrite Hr. cbn.
  assert (Z.lxor b (Z.lxor r b) = r) as ->
    by (rewrite Z.lxor_comm; apply lxor_cancel_r).
  rewrite (Z.lxor_comm r b). by rewrite lxor_cancel_r.
Qed.

Lemma gcd_step_None a b : int_rem a b = None → gcd_step (a, b) = None.
Proof. intros Hr. unfold gcd_step. by rewrite Hr. Qed.

(** One turn of the loop, whatever fuel is left. *)
Lemma gcd_loop_S k a b :
  gcd_loop (Datatypes.S k) a b =
    if b =? 0 then Some a
    else match int_rem a b with
         | Some r => gcd_loop k b r
         | None => None
         end.
Proof.
  cbn [gcd_loop]. destruct (b =? 0); [done|].
  destruct (int_rem a b) as [r|] eqn:Hr.
  - by rewrite (gcd_step_swap _ _ _ Hr).
  - by rewrite (gcd_step_None _ _ Hr).
Qed.

(** Two turns at least halve the second operand. *)
Lemma rem_halves b r :
  r ≠ 0 → Z.abs r < Z.abs b → 2 * Z.abs (Z.rem b r) < Z.abs b.
Proof.
  intros Hr Hlt.
  pose proof (Z.quot_rem' b r) as Hq.
  pose proof (Z.rem_bound_abs b r Hr) as Hm.
  pose proof (Z.rem_sign_mul b r Hr) as Hs.
  set (m := Z.rem b r) in *. set (q := b ÷ r) in *.
  assert (Z.abs r ≤ Z.abs (r * q)).
  { rewrite Z.abs_mul. assert (q ≠ 0) by (intros ->; lia).
    assert (1 ≤ Z.abs q) by lia. nia. }
  assert (Z.abs (r * q) = Z.abs b - Z.abs m); [|lia].
  replace (r * q) with (b - m) by lia. nia.
Qed.

(** With operands below [2^k] in absolute value, [2k + 1] turns reach
    [b == 0] or the trap, like any number of turns above [|b|]. *)
Lemma gcd_loop_log (k : nat) : ∀ f g a b,
  Z.abs b < 2 ^ Z.of_nat k →
  (2 * k + 1 ≤ f)%nat → (Z.abs_nat b < g)%nat →
  gcd_loop f a b = gcd_loop g a b.
Proof.
  induction k as [|k IH]; intros f g a b Hb Hf Hg.
  - assert (b = 0) as -> by (cbn in Hb; lia).
    destruct f as [|f]; [lia|]. destruct g as [|g]; [lia|].
    by rewrite !gcd_loop_S.
  - destruct f as [|[|f]]; [lia..|]. destruct g as [|g]; [lia|].
    rewrite (gcd_loop_S (Datatypes.S f)), (gcd_loop_S g).
    destruct (Z.eqb_spec b 0) as [|Hb0]; [done|].
    destruct (int_rem a b) as [r|] eqn:Hr; [|done].
    apply int_rem_Some in Hr. subst r.
    pose proof (Z.rem_bound_abs a b Hb0) as Hm.
    destruct g as [|g]; [lia|].
    rewrite (gcd_loop_S f), (gcd_loop_S g).
    destruct (Z.eqb_spec (Z.rem a b) 0) as [|Hr0]; [done|].
    destruct (int_rem b (Z.rem a b)) as [r'|] eqn:Hr'; [|done].
    apply int_rem_Some in Hr'. subst r'.
    pose proof (rem_halves b (Z.rem a b) Hr0 Hm) as Hh.
    pose proof (Z.rem_bound_abs b (Z.rem a b) Hr0) as Hm'.
    apply IH; [|lia|lia].
    rewrite Nat2Z.inj_succ, Z.pow_succ_r in Hb by lia. lia.
Qed.

Lemma gcd_fuel_bound b :
  Z.abs b < 2 ^ Z.of_nat (Z.to_nat (Z.log2 (Z.abs b) + 1)) ∧
  gcd_fuel b = (2 * Z.to_nat (Z.log2 (Z.abs b) + 1) + 1)%nat.
Proof.
  pose proof (Z.log2_nonneg (Z.abs b)) as Hl.
  split; [|unfold gcd_fuel; lia].
  rewrite Z2Nat.id by lia.
  destruct (Z.eq_dec (Z.abs b) 0) as [->|Hnz]; [done|].
  apply Z.log2_spec. lia.
Qed.

(** The fuel of [gcd] is the reference fuel [|b| + 1]. *)
Lemma gcd_loop_ref a b :
  gcd_loop (gcd_fuel b) a b = gcd_loop (Datatypes.S (Z.abs_nat b)) a b.
Proof.
  destruct (gcd_fuel_bound b) as [Hb Hf].
  eapply gcd_loop_log; [exact Hb|lia|lia].
Qed.

(** More fuel than [gcd] takes changes nothing: the loop has left
    through [b == 0] or was killed. *)
Lemma gcd_loop_enough fuel a b :
  (gcd_fuel b ≤ fuel)%nat → gcd_loop fuel a b = gcd_loop (gcd_fuel b) a b.
Proof.
  intros Hf. destruct (gcd_fuel_bound b) as [Hb Hg].
  rewrite gcd_loop_ref.
  eapply gcd_loop_log; [exact Hb|lia|lia].
Qed.

Lemma gcd_loop_spec fuel : ∀ a b,
  (Z.abs_nat b < fuel)%nat → 0 ≤ a → 0 ≤ b →
  gcd_loop fuel a b = Some (Z.gcd a b).
Proof.
  induction fuel as [|k IH]; intros a b Hf Ha Hb; [lia|].
  rewrite gcd_loop_S. destruct (Z.eqb_spec b 0) as [->|Hnz].
  - rewrite Z.gcd_0_r. f_equal. lia.
  - rewrite int_rem_defined by (unfold INT_MIN; lia).
    assert (0 ≤ Z.rem a b < b) by (apply Z.rem_bound_pos; lia).
    rewrite IH by lia. f_equal.
    rewrite Z.rem_mod_nonneg by lia.
    rewrite (Z.gcd_comm b), Z.gcd_mod by lia. apply Z.gcd_comm.
Qed.

Lemma gcd_spec a b :
  0 ≤ a ≤ INT_MAX → 0 ≤ b ≤ INT_MAX → gcd a b = Some (Z.gcd a b).
Proof.
  intros Ha Hb. unfold gcd. cbn zeta.
  rewrite !to_int_small by (unfold INT_MIN; lia).
  rewrite gcd_loop_ref. apply gcd_loop_spec; lia.
Qed.

Lemma for_range_foldl {A S : Type} `{Inhabited A} (f : S → A → S) (l : list A) n :
  ∀ i s, (i + n ≤ length l)%nat →
  for_range i n (λ k t, f t (l !!! k)) s = foldl f s (take n (drop i l)).
Proof.
  induction n as [|n IH]; intros i s Hlen; [done|].
  cbn [for_range].
  assert (Hi : l !! i = Some (l !!! i))
    by (apply list_lookup_lookup_total_lt; lia).
  rewrite (drop_S _ _ _ Hi). cbn [take foldl].
  apply IH. lia.
Qed.

Lemma gcd_list_cons v l : gcd_list (v :: l) = Z.gcd v (gcd_list l).
Proof. reflexivity. Qed.

Lemma gcd_list_nonneg l : 0 ≤ gcd_list l.
Proof. destruct l; cbn; [lia | apply Z.gcd_nonneg]. Qed.

Lemma gcd_in_range a v :
  0 ≤ a ≤ INT_MAX → 0 ≤ v ≤ INT_MAX → 0 ≤ Z.gcd a v ≤ INT_MAX.
Proof.
  intros Ha Hv. split; [apply Z.gcd_nonneg|].
  destruct (Z.eq_dec a 0) as [->|Hnz].
  - rewrite Z.gcd_0_l, Z.abs_eq; lia.
  - etransitivity; [|apply Ha].
    apply Z.divide_pos_le; [lia|apply Z.gcd_divide_l].
Qed.

Lemma foldl_gcd l : ∀ a,
  0 ≤ a ≤ INT_MAX → Forall (λ v, 0 ≤ v ≤ INT_MAX) l →
  foldl (λ t v, t ← t; gcd t v) (Some a) l = Some (Z.gcd a (gcd_list l)).
Proof.
  induction l as [|v l IH]; intros a Ha Hl; cbn [foldl gcd_list foldr].
  - rewrite Z.gcd_0_r. f_equal. lia.
  - inversion Hl; subst. cbn [mbind option_bind].
    rewrite gcd_spec by lia.
    rewrite IH by (auto using gcd_in_range).
    f_equal. symmetry. apply Z.gcd_assoc.
Qed.

Lemma gcd_list_divides l : Forall (λ v, (gcd_list l | v)) l.
Proof.
  induction l as [|v l IH]; constructor; cbn [gcd_list foldr].
  - apply Z.gcd_divide_l.
  - eapply Forall_impl; [exact IH|].
    intros w Hw. cbn beta in *. etransitivity; [apply Z.gcd_divide_r | exact Hw].
Qed.

Lemma gcd_list_greatest l d : Forall (λ v, (d | v)) l → (d | gcd_list l).
Proof.
  induction 1; cbn [gcd_list foldr]; [apply Z.divide_0_r|].
  by apply Z.gcd_greatest.
Qed.

Lemma gcd_list_filter l :
  Forall (λ v, 0 ≤ v) l → gcd_list (filter (λ v, v ≠ 0) l) = gcd_list l.
Proof.
  induction 1 as [|v l Hv Hl IH]; [done|].
  rewrite filter_cons. destruct (decide (v ≠ 0)) as [Hnz|Hz].
  - by rewrite !gcd_list_cons, IH.
  - assert (v = 0) as -> by lia.
    rewrite gcd_list_cons, IH, Z.gcd_0_l. symmetry. apply Z.abs_eq, gcd_list_nonneg.
Qed.

Lemma gcd_list_pos l :
  Forall (λ v, 0 ≤ v) l → Exists (λ v, v ≠ 0) l → 0 < gcd_list l.
Proof.
  intros Hl Hex. pose proof (gcd_list_nonneg l) as Hn.
  assert (gcd_list l ≠ 0); [|lia].
  intros Hz. pose proof (gcd_list_divides l) as Hd. rewrite Hz in Hd.
  apply Exists_exists in Hex as (v & Hin & Hv).
  rewrite Forall_forall in Hd. apply Hd in Hin.
  apply Z.divide_0_l in Hin. done.
Qed.

(** On intervals that fit an [int], no call of [gcd] is killed and
    [longest_sleep] is the guarded GCD of all the configured
    intervals, zero ones included. *)
Lemma longest_sleep_run_fold status :
  wf_status status →
  Forall (λ b, 0 ≤ interval b ≤ INT_MAX) (blocks status) →
  longest_sleep_run status =
    Some (let g := gcd_list (interval <$> blocks status) in
          if 0 <? g then g else 5).
Proof.
  intros [Hb _] Hnn. unfold longest_sleep_run.
  destruct status as [n bs us]; cbn [num blocks] in *. subst n.
  destruct bs as [|b0 bs]; [done|].
  cbn [length]. replace (0 <? Datatypes.S (length bs))%nat with true
    by (symmetry; apply Nat.ltb_lt; lia).
  inversion Hnn as [|? ? H0 Hrest]; subst.
  change (at_index (b0 :: bs) 0) with b0.
  rewrite to_int_small by (unfold INT_MIN; lia).
  assert (Hfold : for_range 1 (length bs)
            (λ i t, t ← t; gcd t (interval (at_index (b0 :: bs) i)))
            (Some (interval b0))
          = Some (Z.gcd (interval b0) (gcd_list (interval <$> bs)))).
  { unfold at_index.
    rewrite (for_range_foldl (λ t b, t ← t; gcd t (interval b)) (b0 :: bs))
      by (cbn; lia).
    cbn [drop]. rewrite drop_0, firstn_all.
    rewrite <- (foldl_fmap (λ t v, t ← t; gcd t v) (Some (interval b0)) bs interval).
    apply foldl_gcd; [done|]. by apply Forall_fmap. }
  cbn [fmap list_fmap gcd_list foldr]. cbn zeta.
  replace (Datatypes.S (length bs) - 1)%nat with (length bs) by lia.
  destruct bs as [|b1 bs'].
  - cbn. rewrite Z.gcd_0_r, Z.abs_eq by lia. done.
  - replace (2 <=? Datatypes.S (length (b1 :: bs')))%nat with true
      by (symmetry; apply Nat.leb_le; cbn; lia).
    rewrite Hfold. done.
Qed.

Lemma longest_sleep_fold status :
  wf_status status →
  Forall (λ b, 0 ≤ interval b ≤ INT_MAX) (blocks status) →
  longest_sleep status =
    let g := gcd_list (interval <$> blocks status) in
    if 0 <? g then g else 5.
Proof.
  intros Hwf Hnn. unfold longest_sleep.
  by rewrite (longest_sleep_run_fold _ Hwf Hnn).
Qed.

Lemma Forall_interval_nonneg (l : list block) :
  Forall (λ b, 0 ≤ interval b ≤ INT_MAX) l →
  Forall (λ v, 0 ≤ v) (interval <$> l).
Proof.
  intros H. apply Forall_fmap. eapply Forall_impl; [exact H|].
  intros b Hb. cbn in *. lia.
Qed.

(** For a status line whose intervals fit an [int] (from 0 to
    [INT_MAX]), the sleep duration is 5 when there is no block or
    every interval is 0; otherwise it is the greatest common divisor
    of the nonzero intervals: it divides each of them and every common
    divisor divides it. *)
Theorem longest_sleep_gcd (status : status_line) :
  wf_status status →
  Forall (λ b, 0 ≤ interval b ≤ INT_MAX) (blocks status) →
  (Forall (λ b, interval b = 0) (blocks status) → longest_sleep status = 5) ∧
  (Exists (λ b, interval b ≠ 0) (blocks status) →
     longest_sleep status = gcd_list (nonzero_intervals status) ∧
     0 < longest_sleep status ∧
     Forall (λ v, (longest_sleep status | v)) (nonzero_intervals status) ∧
     ∀ d, Forall (λ v, (d | v)) (nonzero_intervals status) →
          (d | longest_sleep status)).
Proof.
  intros Hwf Hnn. rewrite (longest_sleep_fold _ Hwf Hnn). cbn zeta.
  pose proof (Forall_interval_nonneg _ Hnn) as Hnn'.
  split.
  - intros Hz.
    assert (gcd_list (interval <$> blocks status) = 0) as ->; [|done].
    clear -Hz. induction Hz as [|b l Hb _ IH]; [done|].
    rewrite fmap_cons, gcd_list_cons, Hb, IH. done.
  - intros Hex.
    assert (Hpos : 0 < gcd_list (interval <$> blocks status)).
    { apply gcd_list_pos; [done|]. apply Exists_fmap.
      eapply Exists_impl; [exact Hex|]. done. }
    replace (0 <? _) with true by (symmetry; apply Z.ltb_lt; exact Hpos).
    unfold nonzero_intervals.
    rewrite <- (gcd_list_filter _ Hnn') in *.
    split; [done|]. split; [exact Hpos|]. split.
    + apply gcd_list_divides.
    + apply gcd_list_greatest.
Qed.

(** ** Lemmas on need_update *)

Section NeedUpdate.
Context {E : Externals}.

Lemma need_update_is_or w b :
  let c := fst (need_update_checks w b) in
  fst (need_update w b) = first_time c || outdated c || signaled c || clicked c.
Proof. unfold need_update. by destruct (need_update_checks w b). Qed.

Lemma need_update_world w b :
  caughtsig (snd (need_update w b)) = caughtsig w ∧
  trace (snd (need_update w b)) = trace w.
Proof.
  unfold need_update, need_update_checks, time.
  destruct (negb (interval b =? 0)); cbn;
    destruct (negb (caughtsig w =? 0)); done.
Qed.

Lemma checks_first_time w b :
  first_time (fst (need_update_checks w b)) = (last_update b =? 0).
Proof.
  unfold need_update_checks, time.
  destruct (negb (interval b =? 0)); cbn;
    destruct (negb (caughtsig w =? 0)); cbn; by destruct (last_update b =? 0).
Qed.

Lemma checks_outdated w b :
  outdated (fst (need_update_checks w b)) =
    if interval b =? 0 then false
    else to_long (wrap (wrap (last_update b + interval b)
                        - wrap (clock (ticks w)))) <=? 0.
Proof.
  unfold need_update_checks, time.
  destruct (interval b =? 0); cbn; by destruct (negb (caughtsig w =? 0)).
Qed.

Lemma checks_signaled w b :
  signaled (fst (need_update_checks w b)) =
    if caughtsig w =? 0 then false else caughtsig w =? signal b.
Proof.
  unfold need_update_checks, time.
  destruct (negb (interval b =? 0)); cbn; by destruct (caughtsig w =? 0).
Qed.

Lemma checks_clicked w b :
  clicked (fst (need_update_checks w b)) =
    if caughtsig w =? 0 then false else pending (bclick b).
Proof.
  unfold need_update_checks, time.
  destruct (negb (interval b =? 0)); cbn; by destruct (caughtsig w =? 0).
Qed.

Lemma quiet_checks w b :
  quiet w b →
  signaled (fst (need_update_checks w b)) = false ∧
  clicked (fst (need_update_checks w b)) = false.
Proof.
  rewrite checks_signaled, checks_clicked.
  intros [Hz|[Hs Hp]].
  - by rewrite Hz.
  - destruct (caughtsig w =? 0); [done|]. split; [|done].
    by apply Z.eqb_neq.
Qed.

(** Two differences taken the two ways round sum to zero or to the
    modulus. *)
Lemma wrap_opp a b :
  0 < long_bits →
  wrap (a - b) + wrap (b - a) = 0 ∨ wrap (a - b) + wrap (b - a) = 2 ^ long_bits.
Proof.
  intros Hbits. unfold wrap.
  assert (Hm : 0 < 2 ^ long_bits) by (apply Z.pow_pos_nonneg; lia).
  destruct (decide ((a - b) mod 2 ^ long_bits = 0)) as [Hz|Hnz].
  - left. replace (b - a) with (- (a - b)) by lia.
    rewrite Z.mod_opp_l_z by lia. lia.
  - right. replace (b - a) with (- (a - b)) by lia.
    rewrite Z.mod_opp_l_nz by lia. lia.
Qed.

Lemma wrap_range v : 0 < long_bits → 0 ≤ wrap v < 2 ^ long_bits.
Proof.
  intros. apply Z.mod_pos_bound, Z.pow_pos_nonneg; lia.
Qed.

Lemma half_modulus : 0 < long_bits → 2 ^ long_bits = 2 * 2 ^ (long_bits - 1).
Proof.
  intros. rewrite <- Z.pow_succ_r by lia. f_equal. lia.
Qed.

(** Away from the half-way point, [(long)(next - now) <= 0] says the
    same as [(long)(now - next) >= 0]. *)
Lemma signed_difference_flip now next :
  0 < long_bits →
  wrap (now - next) ≠ 2 ^ (long_bits - 1) →
  to_long (wrap (next - now)) ≤ 0 ↔ 0 ≤ to_long (wrap (now - next)).
Proof.
  intros Hbits Hhalf.
  pose proof (wrap_opp now next Hbits) as Hopp.
  pose proof (wrap_range (now - next) Hbits) as R1.
  pose proof (wrap_range (next - now) Hbits) as R2.
  pose proof (half_modulus Hbits) as HM.
  assert (0 < 2 ^ (long_bits - 1)) by (apply Z.pow_pos_nonneg; lia).
  unfold to_long.
  destruct (Z.ltb_spec (wrap (next - now)) (2 ^ (long_bits - 1)));
    destruct (Z.ltb_spec (wrap (now - next)) (2 ^ (long_bits - 1))); lia.
Qed.

(** C2, amended.  A block that has never run is refreshed whatever the
    time.  With a nonzero interval, a block that has run before and
    neither signal nor click in play, the decision is exactly the
    test [(long)(next_update - now) <= 0] on wrapped words, and this
    is [now - next_update >= 0] as a signed word except when the
    wrapped difference is the half-way point [2^(long_bits-1)]. *)
Theorem need_update_outdated (w : world) (b : block) :
  (last_update b = 0 → fst (need_update w b) = true) ∧
  (interval b ≠ 0 →
   last_update b ≠ 0 →
   quiet w b →
   let now := wrap (clock (ticks w)) in
   let next_update := wrap (last_update b + interval b) in
   (fst (need_update w b) = true ↔ to_long (wrap (next_update - now)) ≤ 0) ∧
   (0 < long_bits → wrap (now - next_update) ≠ 2 ^ (long_bits - 1) →
      (fst (need_update w b) = true ↔ 0 ≤ to_long (wrap (now - next_update))))).
Proof.
  split.
  { intros Hl. rewrite need_update_is_or. cbn zeta.
    by rewrite checks_first_time, Hl. }
  intros Hiv Hlu Hq now next_update.
  assert (Hdec : fst (need_update w b) = true ↔
                 to_long (wrap (next_update - now)) ≤ 0).
  { rewrite need_update_is_or. cbn zeta.
    destruct (quiet_checks w b Hq) as [-> ->].
    rewrite checks_first_time, checks_outdated.
    apply Z.eqb_neq in Hiv, Hlu. rewrite Hiv, Hlu. cbn [orb].
    rewrite !orb_false_r. apply Z.leb_le. }
  split; [exact Hdec|].
  intros Hbits Hhalf. rewrite Hdec. by apply signed_difference_flip.
Qed.

(** C3, amended.  The [clicked] condition holds exactly when a signal
    has been caught and the button field of the block's click is
    non-empty; in that case the block is decided as needing a
    refresh. *)
Theorem need_update_clicked (w : world) (b : block) :
  (clicked (fst (need_update_checks w b)) = true ↔
     caughtsig w ≠ 0 ∧ pending (bclick b) = true) ∧
  (caughtsig w ≠ 0 → pending (bclick b) = true → fst (need_update w b) = true).
Proof.
  assert (Hc : clicked (fst (need_update_checks w b)) = true ↔
               caughtsig w ≠ 0 ∧ pending (bclick b) = true).
  { rewrite checks_clicked.
    destruct (Z.eqb_spec (caughtsig w) 0) as [Hz|Hz]; split;
      try done; by intros []. }
  split; [exact Hc|].
  intros Hs Hp. rewrite need_update_is_or. cbn zeta.
  replace (clicked (fst (need_update_checks w b))) with true
    by (symmetry; by apply Hc).
  by rewrite !orb_true_r.
Qed.

End NeedUpdate.

(** ** Lemmas on update_status_line *)

Lemma for_range_snoc {S : Type} (body : nat → S → S) n : ∀ start s,
  for_range start (Datatypes.S n) body s =
  body (start + n)%nat (for_range start n body s).
Proof.
  induction n as [|n IH]; intros start s.
  - cbn. by rewrite Nat.add_0_r.
  - change (for_range start (Datatypes.S (Datatypes.S n)) body s)
      with (for_range (Datatypes.S start) (Datatypes.S n) body (body start s)).
    rewrite IH. cbn [for_range]. f_equal. lia.
Qed.

Lemma at_index_lookup (l : list block) i b : l !! i = Some b → at_index l i = b.
Proof. unfold at_index. rewrite list_lookup_total_alt. by intros ->. Qed.

Lemma lookup_at_index (l : list block) i :
  (i < length l)%nat → l !! i = Some (at_index l i).
Proof. intros. by apply list_lookup_lookup_total_lt. Qed.

Section Pass.
Context {E : Externals}.

Lemma pass_state_S w status n :
  pass_state w status (Datatypes.S n) = update_body n (pass_state w status n).
Proof. unfold pass_state. by rewrite for_range_snoc. Qed.

Lemma pass_events_S w status n :
  pass_events w status (Datatypes.S n) =
  pass_events w status n ++
    (if dispatched w status n then [EvUpdate n (dispatch_arg status n)] else []).
Proof.
  unfold pass_events. rewrite seq_S, flat_map_app. cbn [flat_map].
  by rewrite app_nil_r.
Qed.

Lemma pass_invariant w status n :
  wf_status status → (n ≤ num status)%nat →
  pass_inv w status n (pass_state w status n).
Proof.
  intros [Hb Hu] Hn. induction n as [|n IH].
  - unfold pass_state. cbn. split; cbn; try done; try lia.
    by rewrite app_nil_r.
  - specialize (IH ltac:(lia)). rewrite pass_state_S.
    assert (Hd : dispatched w status n =
              nonempty (command (at_index (blocks status) n)) &&
              fst (need_update (fst (pass_state w status n))
                               (at_index (updated_blocks status) n))) by done.
    assert (Hr : pass_result w status n =
              if dispatched w status n then
                set_bclick (block_update (trace (fst (pass_state w status n)))
                             (dispatch_arg status n)) zero_click
              else at_index (updated_blocks status) n) by done.
    destruct (pass_state w status n) as [wn sn].
    destruct IH as [Ib In Is Il It Id Itr]. cbn [fst snd] in *.
    assert (Hun : at_index (updated_blocks sn) n = at_index (updated_blocks status) n).
    { apply at_index_lookup. rewrite It by lia. apply lookup_at_index. lia. }
    unfold update_body. rewrite Ib, Hun.
    pose proof (pass_events_S w status n) as Hev.
    destruct (nonempty (command (at_index (blocks status) n))) eqn:Hcmd; cbn [negb].
    2:{ cbn [andb] in Hd. rewrite Hd in *. split; cbn [fst snd]; try done.
        - intros j Hj. apply It. lia.
        - intros j Hj. destruct (decide (j = n)) as [->|].
          + rewrite Hr, It by lia. apply lookup_at_index. lia.
          + apply Id. lia.
        - by rewrite Hev, app_nil_r. }
    cbn [andb] in Hd.
    pose proof (need_update_world wn (at_index (updated_blocks status) n))
      as [Hsig Htr].
    destruct (need_update wn (at_index (updated_blocks status) n))
      as [needed w'] eqn:Hnu.
    cbn [fst snd] in *. rewrite Hd in *. destruct needed.
    + split; cbn [fst snd emit set_updated_blocks caughtsig trace
                  blocks num updated_blocks]; try done.
      * congruence.
      * by rewrite length_insert.
      * intros j Hj. rewrite list_lookup_insert_ne by lia. apply It. lia.
      * intros j Hj. destruct (decide (j = n)) as [->|].
        -- rewrite list_lookup_insert_eq by lia. rewrite Hr, Htr. done.
        -- rewrite list_lookup_insert_ne by lia. apply Id. lia.
      * rewrite Hev, Htr, Itr, <- app_assoc. done.
    + split; cbn [fst snd]; try done.
      * congruence.
      * intros j Hj. apply It. lia.
      * intros j Hj. destruct (decide (j = n)) as [->|].
        -- rewrite Hr, It by lia. apply lookup_at_index. lia.
        -- apply Id. lia.
      * rewrite Hev, Htr, Itr, app_nil_r. done.
Qed.

(** The pass as a whole: the loop run to [num], then the reset of
    [caughtsig]. *)
Lemma update_status_line_unfold w status :
  update_status_line w status =
  let ws := pass_state w status (num status) in
  ((if 0 <? caughtsig (fst ws) then set_caughtsig (fst ws) 0 else fst ws),
   snd ws).
Proof.
  unfold update_status_line, pass_state.
  by destruct (for_range 0 (num status) update_body (w, status)).
Qed.

Lemma update_status_line_inv w status :
  wf_status status →
  let ws := update_status_line w status in
  blocks (snd ws) = blocks status ∧
  num (snd ws) = num status ∧
  length (updated_blocks (snd ws)) = num status ∧
  (∀ j, (j < num status)%nat →
     updated_blocks (snd ws) !! j = Some (pass_result w status j)) ∧
  trace (fst ws) = trace w ++ pass_events w status (num status) ∧
  caughtsig (fst ws) = (if 0 <? caughtsig w then 0 else caughtsig w) ∧
  ticks (fst ws) = ticks (fst (pass_state w status (num status))).
Proof.
  intros Hwf. rewrite update_status_line_unfold. cbn zeta.
  destruct (pass_invariant w status (num status) Hwf ltac:(lia))
    as [Ib In Is Il It Id Itr].
  cbn [fst snd]. repeat split; try done.
  - by destruct (0 <? caughtsig (fst (pass_state w status (num status)))).
  - rewrite Is. by destruct (0 <? caughtsig w).
  - by destruct (0 <? caughtsig (fst (pass_state w status (num status)))).
Qed.

Lemma update_status_line_wf w status :
  wf_status status → wf_status (snd (update_status_line w status)).
Proof.
  intros Hwf. destruct (update_status_line_inv w status Hwf)
    as (Hb & Hn & Hl & _).
  destruct Hwf as [Hwb Hwu]. split; congruence.
Qed.

Lemma elem_of_pass_events w status n i arg :
  EvUpdate i arg ∈ pass_events w status n ↔
  (i < n)%nat ∧ dispatched w status i = true ∧ arg = dispatch_arg status i.
Proof.
  unfold pass_events. rewrite list_elem_of_In, in_flat_map. split.
  - intros (k & Hk & Hin). apply in_seq in Hk.
    destruct (dispatched w status k) eqn:Hd; [|done].
    destruct Hin as [Heq|[]]. inversion Heq; subst. split; [lia|done].
  - intros (Hi & Hd & ->). exists i. split; [apply in_seq; lia|].
    rewrite Hd. by left.
Qed.

Lemma pass_events_updates w status n e :
  e ∈ pass_events w status n → ∃ i arg, e = EvUpdate i arg.
Proof.
  unfold pass_events. rewrite list_elem_of_In, in_flat_map.
  intros (k & _ & Hin). destruct (dispatched w status k); [|done].
  destruct Hin as [<-|[]]. eauto.
Qed.

End Pass.

Section PassTheorems.
Context {E : Externals}.

(** The loop writes neither the config array, nor [num], nor
    [caughtsig], whatever the lengths of the arrays. *)
Lemma for_range_update_frame n : ∀ start ws,
  let ws' := for_range start n update_body ws in
  blocks (snd ws') = blocks (snd ws) ∧
  num (snd ws') = num (snd ws) ∧
  caughtsig (fst ws') = caughtsig (fst ws).
Proof.
  induction n as [|n IH]; intros start ws; [done|].
  cbn [for_range]. cbn zeta.
  destruct (IH (Datatypes.S start) (update_body start ws)) as (-> & -> & ->).
  destruct ws as [w st]. unfold update_body.
  destruct (negb _); [done|].
  pose proof (need_update_world w (at_index (updated_blocks st) start)) as [Hs _].
  destruct (need_update w (at_index (updated_blocks st) start)) as [[|] w'];
    cbn [fst snd] in *; done.
Qed.

Lemma update_status_line_frame w status :
  let ws := update_status_line w status in
  blocks (snd ws) = blocks status ∧
  num (snd ws) = num status ∧
  caughtsig (fst ws) = (if 0 <? caughtsig w then 0 else caughtsig w).
Proof.
  rewrite update_status_line_unfold. cbn zeta. unfold pass_state.
  destruct (for_range_update_frame (num status) 0 (w, status)) as (Hb & Hn & Hs).
  cbn [fst snd] in *. repeat split; [done..|].
  rewrite Hs. by destruct (0 <? caughtsig w).
Qed.




End PassTheorems.

(** ** Lemmas on handle_click *)

Section Click.
Context {E : Externals}.

Lemma nonempty_spec s : nonempty s = false ↔ s = "".
Proof. by destruct s. Qed.

Lemma strcmp_spec b nm inst :
  strcmp_eq0 (name b) nm && strcmp_eq0 (instance b) inst = true ↔
  name b = nm ∧ instance b = inst.
Proof.
  unfold strcmp_eq0. rewrite andb_true_iff, !String.eqb_eq. done.
Qed.

Lemma find_block_miss nm inst c n : ∀ start status,
  (∀ j, (start ≤ j < start + n)%nat →
     ¬ (name (at_index (updated_blocks status) j) = nm ∧
        instance (at_index (updated_blocks status) j) = inst)) →
  find_block start n nm inst c status = status.
Proof.
  induction n as [|n IH]; intros start status Hno; [done|].
  cbn [find_block].
  destruct (strcmp_eq0 _ nm && strcmp_eq0 _ inst) eqn:Hm.
  - apply strcmp_spec in Hm. exfalso. apply (Hno start); [lia|done].
  - apply IH. intros j Hj. apply Hno. lia.
Qed.

Lemma find_block_hit nm inst c n : ∀ start status i,
  (start ≤ i < start + n)%nat →
  name (at_index (updated_blocks status) i) = nm ∧
    instance (at_index (updated_blocks status) i) = inst →
  (∀ j, (start ≤ j < i)%nat →
     ¬ (name (at_index (updated_blocks status) j) = nm ∧
        instance (at_index (updated_blocks status) j) = inst)) →
  find_block start n nm inst c status =
    set_updated_blocks status
      (<[i := set_bclick (at_index (updated_blocks status) i) c]>
         (updated_blocks status)).
Proof.
  induction n as [|n IH]; intros start status i Hi Hm Hfirst; [lia|].
  cbn [find_block].
  destruct (strcmp_eq0 _ nm && strcmp_eq0 _ inst) eqn:Hs.
  - apply strcmp_spec in Hs.
    destruct (decide (i = start)) as [->|Hne]; [done|].
    exfalso. apply (Hfirst start); [lia|done].
  - destruct (decide (i = start)) as [->|Hne].
    + apply strcmp_spec in Hm. congruence.
    + apply IH; [lia|done|]. intros j Hj. apply Hfirst. lia.
Qed.

Lemma find_block_frame nm inst c n : ∀ start status,
  let s' := find_block start n nm inst c status in
  blocks s' = blocks status ∧ num s' = num status ∧
  length (updated_blocks s') = length (updated_blocks status).
Proof.
  induction n as [|n IH]; intros start status; [done|].
  cbn [find_block]. cbn zeta.
  destruct (strcmp_eq0 _ nm && strcmp_eq0 _ inst).
  - cbn. by rewrite length_insert.
  - apply IH.
Qed.

Lemma handle_click_frame input status :
  blocks (handle_click input status) = blocks status ∧
  num (handle_click input status) = num status ∧
  length (updated_blocks (handle_click input status)) =
    length (updated_blocks status).
Proof.
  unfold handle_click. destruct (nonempty _ || nonempty _); [|done].
  apply find_block_frame.
Qed.

Lemma handle_click_wf input status :
  wf_status status → wf_status (handle_click input status).
Proof.
  intros [Hb Hu]. destruct (handle_click_frame input status) as (Eb & En & El).
  split; congruence.
Qed.

(** C6.  The first runtime block, in index order, whose name and
    instance equal those of the click receives the payload: its click
    becomes the one read from the input and its other fields stay as
    they were; no other block changes, unless the click has neither
    name nor instance; in that case, and when no block matches, the
    status line is left as it is. *)
Theorem handle_click_first_match (input : list ascii) (status : status_line) :
  wf_status status →
  let payload := p_click (read_click input) in
  let after := updated_blocks (handle_click input status) in
  (∀ i, (i < num status)%nat →
     ¬ (click_name input = "" ∧ click_instance input = "") →
     click_matches input (at_index (updated_blocks status) i) →
     (∀ j, (j < i)%nat →
        ¬ click_matches input (at_index (updated_blocks status) j)) →
     let before := at_index (updated_blocks status) i in
     (∃ b, after !! i = Some b ∧
           bclick b = payload ∧
           name b = name before ∧
           instance b = instance before ∧
           full_text b = full_text before ∧
           command b = command before ∧
           interval b = interval before ∧
           signal b = signal before ∧
           last_update b = last_update before) ∧
     (∀ j, j ≠ i → after !! j = updated_blocks status !! j) ∧
     blocks (handle_click input status) = blocks status) ∧
  ((click_name input = "" ∧ click_instance input = "") ∨
   (∀ i, (i < num status)%nat →
      ¬ click_matches input (at_index (updated_blocks status) i)) →
   handle_click input status = status).
Proof.
  intros [Hb Hu] payload after. split.
  - intros i Hi Hne Hm Hfirst before. subst after payload before.
    unfold handle_click, click_matches, click_name, click_instance in *.
    set (p := read_click input) in *.
    set (nm := cstr_at (p_json p) (p_name p)) in *.
    set (inst := cstr_at (p_json p) (p_instance p)) in *.
    destruct (nonempty nm || nonempty inst) eqn:Hany.
    2:{ apply orb_false_elim in Hany as [H1 H2].
        apply nonempty_spec in H1, H2. tauto. }
    rewrite (find_block_hit nm inst (p_click p) (num status) 0 status i)
      by (try lia; try done; intros j Hj; apply Hfirst; lia).
    cbn [set_updated_blocks updated_blocks blocks].
    split; [|split; [|done]].
    + eexists. split; [by rewrite list_lookup_insert_eq by lia|].
      by destruct (at_index (updated_blocks status) i).
    + intros j Hj. by rewrite list_lookup_insert_ne.
  - intros Hcase. unfold handle_click, click_matches, click_name,
      click_instance in *.
    set (p := read_click input) in *.
    set (nm := cstr_at (p_json p) (p_name p)) in *.
    set (inst := cstr_at (p_json p) (p_instance p)) in *.
    destruct Hcase as [[-> ->]|Hno]; [done|].
    destruct (nonempty nm || nonempty inst); [|done].
    apply find_block_miss. intros j Hj. apply Hno. lia.
Qed.

End Click.

(** ** Lemmas on parse_click *)

Section Parse.
Context {E : Externals}.



Lemma bytes_at_length buf start n : length (bytes_at buf start n) = n.
Proof. unfold bytes_at. by rewrite length_fmap, length_seq. Qed.



Lemma memcpy_copied dst buf start n :
  take n (memcpy dst buf start n) = bytes_at buf start n.
Proof.
  unfold memcpy. rewrite take_app_length'; [done|]. by rewrite bytes_at_length.
Qed.




End Parse.

(** ** Lemmas on sched_start *)

Section Loop.
Context {E : Externals}.

Lemma renders_app a b : renders (a ++ b) = renders a ++ renders b.
Proof. apply List.filter_app. Qed.

Lemma renders_pass_events w status n : renders (pass_events w status n) = [].
Proof.
  unfold renders.
  induction n as [|n IH]; [done|].
  rewrite pass_events_S, List.filter_app, IH.
  by destruct (dispatched w status n).
Qed.

Lemma dispatched_has_command w status i :
  dispatched w status i = true →
  nonempty (command (at_index (blocks status) i)) = true.
Proof. unfold dispatched. by intros [? _]%andb_true_iff. Qed.

Lemma run_events_app status t a b :
  run_events status t a → run_events status t b → run_events status t (a ++ b).
Proof.
  intros (U1 & R1 & S1) (U2 & R2 & S2). split; [|split].
  - intros i arg [?|?]%elem_of_app; [by apply (U1 i arg) | by apply (U2 i arg)].
  - intros s [?|?]%elem_of_app; [by apply R1 | by apply R2].
  - intros s [?|?]%elem_of_app; [by apply S1 | by apply S2].
Qed.

Lemma run_events_same_config s1 s2 t evs :
  blocks s1 = blocks s2 → num s1 = num s2 →
  run_events s1 t evs → run_events s2 t evs.
Proof. unfold run_events. by intros -> ->. Qed.

Lemma elem_of_turn_tail e s t :
  e ∈ [EvRender s; EvSleep t] → e = EvRender s ∨ e = EvSleep t.
Proof. rewrite !elem_of_cons, elem_of_nil. tauto. Qed.

(** One turn of the loop. *)
Lemma sched_turn_inv t w status wk :
  wf_status status →
  let ws' := sched_turn t (w, status) wk in
  wf_status (snd ws') ∧
  blocks (snd ws') = blocks status ∧
  num (snd ws') = num status ∧
  ∃ evs, trace (fst ws') = trace w ++ evs ∧
         run_events status t evs ∧
         length (renders evs) = 1%nat.
Proof.
  intros Hwf. unfold sched_turn.
  pose proof (update_status_line_inv w status Hwf)
    as (Hb & Hn & Hl & _ & Htr & _).
  pose proof (update_status_line_wf w status Hwf) as Hwf1.
  destruct (update_status_line w status) as [w1 s1]. cbn [fst snd] in *.
  unfold sleep, json_print_status_line. cbn zeta.
  set (evs := pass_events w status (num status) ++ [EvRender s1; EvSleep t]).
  set (w2 := match delivered wk with
             | Some s => handler s (emit (emit w1 (EvRender s1)) (EvSleep t))
             | None => emit (emit w1 (EvRender s1)) (EvSleep t)
             end).
  assert (Ht2 : trace w2 = trace w ++ evs).
  { subst w2 evs. destruct (delivered wk); cbn; rewrite Htr, <- !app_assoc; done. }
  assert (Hev : run_events status t evs ∧ length (renders evs) = 1%nat).
  { subst evs. split.
    - split; [|split].
      + intros i arg [H|H]%elem_of_app.
        * rewrite elem_of_pass_events in H. destruct H as (Hi & Hd & _).
          split; [lia | by apply (dispatched_has_command w)].
        * by apply elem_of_turn_tail in H as [H|H].
      + intros s [H|H]%elem_of_app.
        * apply pass_events_updates in H as (? & ? & ?). done.
        * apply elem_of_turn_tail in H as [H|H]; [|done].
          inversion H; subst. done.
      + intros t' [H|H]%elem_of_app.
        * apply pass_events_updates in H as (? & ? & ?). done.
        * apply elem_of_turn_tail in H as [H|H]; [done|]. by inversion H.
    - rewrite renders_app, renders_pass_events. done. }
  destruct Hev as [Hrun Hlen].
  destruct (negb (unslept wk =? 0)); [destruct (caughtsig w2 =? SIGIO)|];
    cbn [fst snd].
  - pose proof (handle_click_frame (input wk) s1) as (Eb & En & El).
    split; [by apply handle_click_wf|]. repeat split; [congruence..|].
    by exists evs.
  - repeat split; [apply Hwf1..|done|done|]. by exists evs.
  - repeat split; [apply Hwf1..|done|done|]. by exists evs.
Qed.

(** Any number of turns, from any well-formed state. *)
Lemma sched_loop_inv t wakes : ∀ w status,
  wf_status status →
  let ws' := foldl (sched_turn t) (w, status) wakes in
  wf_status (snd ws') ∧
  blocks (snd ws') = blocks status ∧
  num (snd ws') = num status ∧
  ∃ evs, trace (fst ws') = trace w ++ evs ∧
         run_events status t evs ∧
         length (renders evs) = length wakes.
Proof.
  induction wakes as [|wk wakes IH]; intros w status Hwf.
  - cbn. split; [done|]. split; [done|]. split; [done|].
    exists []. rewrite app_nil_r. split; [done|]. split; [|done].
    split; [|split].
    + by intros i arg Hin%elem_of_nil.
    + by intros s Hin%elem_of_nil.
    + by intros t' Hin%elem_of_nil.
  - cbn [foldl]. cbn zeta.
    destruct (sched_turn_inv t w status wk Hwf)
      as (Hwf1 & Hb1 & Hn1 & evs1 & Ht1 & Hr1 & Hl1).
    destruct (sched_turn t (w, status) wk) as [w1 s1]. cbn [fst snd] in *.
    destruct (IH w1 s1 Hwf1) as (Hwf2 & Hb2 & Hn2 & evs2 & Ht2 & Hr2 & Hl2).
    split; [done|]. split; [congruence|]. split; [congruence|].
    exists (evs1 ++ evs2). split; [by rewrite Ht2, Ht1, app_assoc|]. split.
    + apply run_events_app; [done|]. by apply (run_events_same_config s1).
    + rewrite renders_app, length_app, Hl1, Hl2. done.
Qed.

(** The turns of the loop write neither the config array nor [num],
    whatever the lengths of the arrays. *)
Lemma sched_loop_frame t wakes : ∀ w status,
  let ws' := foldl (sched_turn t) (w, status) wakes in
  blocks (snd ws') = blocks status ∧ num (snd ws') = num status.
Proof.
  induction wakes as [|wk wakes IH]; intros w status; [done|].
  cbn [foldl]. cbn zeta.
  assert (Hturn : blocks (snd (sched_turn t (w, status) wk)) = blocks status ∧
                  num (snd (sched_turn t (w, status) wk)) = num status).
  { unfold sched_turn.
    pose proof (update_status_line_frame w status) as (Hb & Hn & _).
    destruct (update_status_line w status) as [w1 s1]. cbn [fst snd] in *.
    destruct (sleep t wk (json_print_status_line w1 s1)) as [remaining w2].
    pose proof (handle_click_frame (input wk) s1) as (Eb & En & _).
    destruct (negb (remaining =? 0)); [destruct (caughtsig w2 =? SIGIO)|];
      cbn [fst snd]; split; congruence. }
  destruct (sched_turn t (w, status) wk) as [w1 s1]. cbn [fst snd] in *.
  destruct (IH w1 s1) as [-> ->]. exact Hturn.
Qed.

(** [caughtsig] never goes negative while the signals delivered are
    positive. *)
Lemma sched_loop_caughtsig t wakes : ∀ w status,
  signals_positive wakes → 0 ≤ caughtsig w →
  0 ≤ caughtsig (fst (foldl (sched_turn t) (w, status) wakes)).
Proof.
  induction wakes as [|wk wakes IH]; intros w status Hpos Hw; [done|].
  inversion Hpos as [|? ? Hwk Hrest]; subst.
  cbn [foldl].
  assert (Hturn : 0 ≤ caughtsig (fst (sched_turn t (w, status) wk))).
  { unfold sched_turn.
    pose proof (update_status_line_frame w status) as (_ & _ & Hs).
    destruct (update_status_line w status) as [w1 s1]. cbn [fst snd] in *.
    unfold sleep, json_print_status_line. cbn zeta.
    assert (0 ≤ caughtsig w1)
      by (rewrite Hs; destruct (0 <? caughtsig w); lia).
    destruct (delivered wk) as [s|] eqn:Hd.
    - specialize (Hwk s eq_refl).
      destruct (negb (unslept wk =? 0));
        [destruct (caughtsig _ =? SIGIO)|]; cbn; lia.
    - destruct (negb (unslept wk =? 0));
        [destruct (caughtsig _ =? SIGIO)|]; cbn; lia. }
  destruct (sched_turn t (w, status) wk) as [w1 s1]. by apply IH.
Qed.

(** Every sleep of a run lasts what [longest_sleep] computed before
    the loop. *)
Lemma sched_start_sleeptime w status wakes :
  wf_status status →
  ∃ evs, trace (fst (sched_start w status wakes)) = trace w ++ evs ∧
         ∀ t, EvSleep t ∈ evs → t = longest_sleep status.
Proof.
  intros Hwf. unfold sched_start. cbn zeta.
  destruct (sched_loop_inv (longest_sleep status) wakes w status Hwf)
    as (_ & _ & _ & evs & Htr & (_ & _ & Hs) & _).
  by exists evs.
Qed.

(** C7.  However many turns the scheduler runs and whatever wakes it,
    [block_update] is never called on a block whose configured command
    is empty, while every turn hands the renderer a status line that
    holds this block. *)
Theorem static_block_never_dispatched (w : world) (status : status_line)
    (wakes : list wake) (i : nat) :
  wf_status status →
  (i < num status)%nat →
  command (at_index (blocks status) i) = "" →
  ∃ evs, trace (fst (sched_start w status wakes)) = trace w ++ evs ∧
    (∀ arg, EvUpdate i arg ∉ evs) ∧
    length (renders evs) = length wakes ∧
    (∀ s, EvRender s ∈ evs →
       is_Some (updated_blocks s !! i) ∧
       at_index (blocks s) i = at_index (blocks status) i).
Proof.
  intros Hwf Hi Hcmd. unfold sched_start. cbn zeta.
  destruct (sched_loop_inv (longest_sleep status) wakes w status Hwf)
    as (_ & _ & _ & evs & Htr & (Hu & Hr & _) & Hlen).
  exists evs. split; [done|]. split; [|split; [done|]].
  - intros arg Hin. destruct (Hu i arg Hin) as [_ Hne].
    rewrite Hcmd in Hne. done.
  - intros s Hin. destruct (Hr s Hin) as ([_ Hlu] & Hb & Hn).
    split; [|by rewrite Hb].
    apply lookup_lt_is_Some. lia.
Qed.

(** C10.  A pass, the handling of a click and a whole run of the
    scheduler (the sleep duration computed, then any number of turns)
    leave [blocks] and [num] as they were: what they return differs
    from the status line they were given in [updated_blocks] only. *)
Theorem config_blocks_unchanged (w : world) (status : status_line)
    (input : list ascii) (wakes : list wake) :
  let unchanged (s' : status_line) :=
    blocks s' = blocks status ∧ num s' = num status ∧
    s' = set_updated_blocks status (updated_blocks s') in
  unchanged (snd (update_status_line w status)) ∧
  unchanged (handle_click input status) ∧
  unchanged (snd (sched_start w status wakes)).
Proof.
  assert (Hset : ∀ s', blocks s' = blocks status → num s' = num status →
            s' = set_updated_blocks status (updated_blocks s')).
  { intros [n b u] Hb Hn. cbn in *. subst. done. }
  cbn zeta. split; [|split].
  - destruct (update_status_line_frame w status) as (Hb & Hn & _). auto.
  - destruct (handle_click_frame input status) as (Hb & Hn & _). auto.
  - destruct (sched_loop_frame (longest_sleep status) wakes w status) as (Hb & Hn).
    unfold sched_start. auto.
Qed.

End Loop.

(** ** The statements at concrete inputs *)

(** C1.  [longest_sleep] holds the intervals in [int]: one of [2^31]
    or more is converted before the GCD is taken.  With the intervals
    4294967295 and 4 it returns the default 5, where the GCD of the
    nonzero intervals is 1 and 5 does not divide 4; with the single
    interval 3000000000 it returns 5 as well. *)
Theorem longest_sleep_int_overflow :
  (wf_status DemoStartup.wide ∧
   interval <$> blocks DemoStartup.wide = [4294967295; 4] ∧
   longest_sleep_run DemoStartup.wide = Some 5 ∧
   longest_sleep DemoStartup.wide = 5 ∧
   gcd_list (nonzero_intervals DemoStartup.wide) = 1 ∧
   ¬ (longest_sleep DemoStartup.wide | 4)) ∧
  (wf_status DemoStartup.wide_alone ∧
   interval <$> blocks DemoStartup.wide_alone = [3000000000] ∧
   longest_sleep_run DemoStartup.wide_alone = Some 5 ∧
   longest_sleep DemoStartup.wide_alone = 5 ∧
   gcd_list (nonzero_intervals DemoStartup.wide_alone) = 3000000000).
Proof.
  split.
  - split; [split; reflexivity|]. split; [reflexivity|].
    split; [vm_compute; reflexivity|]. split; [vm_compute; reflexivity|].
    split; [vm_compute; reflexivity|].
    replace (longest_sleep DemoStartup.wide) with 5 by (vm_compute; reflexivity).
    intros [k Hk]. lia.
  - split; [split; reflexivity|]. split; [reflexivity|].
    split; [vm_compute; reflexivity|]. split; [vm_compute; reflexivity|].
    vm_compute; reflexivity.
Qed.

Lemma longest_sleep_gcd_witness :
  longest_sleep Demo.three = gcd_list (nonzero_intervals Demo.three) ∧
  0 < longest_sleep Demo.three ∧
  Forall (λ v, (longest_sleep Demo.three | v)) (nonzero_intervals Demo.three) ∧
  ∀ d, Forall (λ v, (d | v)) (nonzero_intervals Demo.three) →
       (d | longest_sleep Demo.three).
Proof.
  apply (longest_sleep_gcd Demo.three).
  - split; reflexivity.
  - repeat (constructor; [unfold INT_MAX; cbn; lia|]). constructor.
  - left. cbn. lia.
Defined.

(** C2 as it is worded fails on a block that has never run: at time 5
    a block with interval 10 and [last_update] 0 is refreshed although
    [now - (last_update + interval)] is negative. *)
Lemma need_update_first_run_counterexample :
  ¬ (∀ (E : Externals) (w : world) (b : block),
       interval b ≠ 0 → quiet w b →
       (fst (need_update w b) = true ↔
        0 ≤ to_long (wrap (wrap (clock (ticks w))
                           - wrap (last_update b + interval b))))).
Proof.
  intros H.
  specialize (H (Demo.platform 5) initial_world
                (Demo.mk_block "time" "" "date" 10 0 0 Demo.no_click)).
  destruct H as [H _]; [cbn; lia | left; reflexivity |].
  specialize (H eq_refl). vm_compute in H. by apply H.
Qed.

Lemma need_update_outdated_witness :
  let E := Demo.platform 1010 in
  let now := wrap (clock (ticks initial_world)) in
  let next_update := wrap (last_update Demo.due_block + interval Demo.due_block) in
  fst (need_update initial_world
         (Demo.mk_block "time" "" "date" 10 0 0 Demo.no_click)) = true ∧
  (fst (need_update initial_world Demo.due_block) = true ↔
     to_long (wrap (next_update - now)) ≤ 0) ∧
  (fst (need_update initial_world Demo.due_block) = true ↔
     0 ≤ to_long (wrap (now - next_update))).
Proof.
  intros E now next_update. split.
  - apply (proj1 (need_update_outdated (E := E) initial_world
                    (Demo.mk_block "time" "" "date" 10 0 0 Demo.no_click))).
    reflexivity.
  - destruct (need_update_outdated (E := E) initial_world Demo.due_block)
      as [_ H].
    destruct H as [H1 H2].
    + cbn; lia.
    + cbn; lia.
    + left; reflexivity.
    + split; [exact H1|]. apply H2.
      * cbn; lia.
      * vm_compute. discriminate.
Defined.

(** C3 as it is worded fails when no signal has been caught: a block
    holding a click is then neither [clicked] nor refreshed. *)
Lemma need_update_clicked_counterexample :
  ¬ (∀ (E : Externals) (w : world) (b : block),
       (clicked (fst (need_update_checks w b)) = true ↔
          pending (bclick b) = true) ∧
       (pending (bclick b) = true → fst (need_update w b) = true)).
Proof.
  intros H.
  destruct (H (Demo.platform 5) initial_world Demo.clicked_block) as [_ H2].
  specialize (H2 eq_refl). vm_compute in H2. discriminate.
Qed.

Lemma need_update_clicked_witness :
  let E := Demo.platform 5 in
  fst (need_update (World 29 0 []) Demo.clicked_block) = true.
Proof.
  intros E.
  apply (need_update_clicked (E := E) (World 29 0 []) Demo.clicked_block).
  - cbn. lia.
  - reflexivity.
Defined.




Lemma handle_click_first_match_witness :
  let E := Demo.platform 5 in
  ∃ b, updated_blocks (handle_click Demo.vol_click Demo.three) !! 1%nat = Some b ∧
       bclick b = Demo.one_click ∧
       name b = "vol" ∧ instance b = "" ∧ command b = "" ∧ interval b = 6.
Proof.
  intros E.
  destruct (handle_click_first_match (E := E) Demo.vol_click Demo.three)
    as [Hhit _].
  - split; reflexivity.
  - destruct (Hhit 1%nat) as [(b & Hb & Hc & Hn & Hi & _ & Hcmd & Hiv & _) _].
    + cbn; lia.
    + intros [H _]. vm_compute in H. discriminate.
    + split; reflexivity.
    + intros j Hj [_ H]. assert (j = 0%nat) as -> by lia.
      vm_compute in H. discriminate.
    + exists b. split; [exact Hb|]. split; [by rewrite Hc|]. by repeat split.
Defined.

Lemma static_block_never_dispatched_witness :
  let E := Demo.platform 5 in
  ∃ evs,
    trace (fst (sched_start initial_world Demo.three Demo.two_wakes))
      = trace initial_world ++ evs ∧
    (∀ arg, EvUpdate 1 arg ∉ evs) ∧
    length (renders evs) = length Demo.two_wakes ∧
    (∀ s, EvRender s ∈ evs →
       is_Some (updated_blocks s !! 1%nat) ∧
       at_index (blocks s) 1 = at_index (blocks Demo.three) 1).
Proof.
  intros E.
  apply (static_block_never_dispatched (E := E) initial_world Demo.three
           Demo.two_wakes 1).
  - split; reflexivity.
  - cbn; lia.
  - reflexivity.
Defined.



(** The end-to-end scenario: intervals 4, 6 and 0 give a sleep of 2,
    and the click on ["vol"] with an empty instance reads as button
    ["1"], x ["10"], y ["20"]. *)
Example longest_sleep_three : longest_sleep Demo.three = 2.
Proof. reflexivity. Qed.

Example read_vol_click :
  let E := Demo.platform 5 in
  click_name Demo.vol_click = "vol" ∧
  click_instance Demo.vol_click = "" ∧
  p_click (read_click Demo.vol_click) = Demo.one_click.
Proof. repeat split; vm_compute; reflexivity. Qed.

(** A value longer than its array is cut to capacity minus one. *)
Example long_button_is_cut :
  let E := Demo.platform 5 in
  button (p_click (read_click
    (Demo.record "{'button':'12345','x':'1','y':'2'}")))
  = Demo.bytes "1" ++ [NUL].
Proof. vm_compute. reflexivity. Qed.

(** At the half-way point the two signed comparisons part: the code
    finds the block outdated while [now - next_update] reads as the
    most negative word. *)
Example need_update_half_way :
  let E := Demo.platform (1010 + 2 ^ 63) in
  fst (need_update initial_world Demo.due_block) = true ∧
  to_long (wrap (wrap (clock (ticks initial_world))
                 - wrap (last_update Demo.due_block
                         + interval Demo.due_block))) = - 2 ^ 63.
Proof. split; vm_compute; reflexivity. Qed.

(** On a negative operand the loop of [gcd] can return a negative
    number, which [longest_sleep] then replaces by its default; on
    [INT_MIN] and [-1] it is killed. *)
Example gcd_negative : gcd 4 (-6) = Some (-2) ∧ gcd (-4) 6 = Some 2.
Proof. split; reflexivity. Qed.

Example gcd_killed : gcd INT_MIN (-1) = None ∧ gcd (-1) INT_MIN = None.
Proof. split; vm_compute; reflexivity. Qed.

(** A block that is not due and caught no signal keeps its click
    through a pass as well. *)
Example undecided_click_kept :
  let E := Demo.platform 5 in
  let status := Demo.mk_status [Demo.clicked_block] [Demo.clicked_block] in
  snd (update_status_line initial_world status) = status.
Proof. vm_compute. reflexivity. Qed.

(** ** Further properties of longest_sleep *)

Lemma gcd_rem_swap a b : Z.gcd b (Z.rem a b) = Z.gcd a b.
Proof.
  pose proof (Z.quot_rem' a b) as Hq.
  rewrite (Z.gcd_comm a b).
  replace (Z.gcd b a) with (Z.gcd b (Z.rem a b + (a ÷ b) * b))
    by (f_equal; lia).
  by rewrite Z.gcd_add_mult_diag_r.
Qed.

(** The loop on the reference fuel, one turn at a time. *)
Lemma gcd_ref_step a b :
  b ≠ 0 →
  gcd_loop (Datatypes.S (Z.abs_nat b)) a b =
    match int_rem a b with
    | Some r => gcd_loop (Datatypes.S (Z.abs_nat r)) b r
    | None => None
    end.
Proof.
  intros Hb. rewrite gcd_loop_S.
  destruct (Z.eqb_spec b 0); [done|].
  destruct (int_rem a b) as [r|] eqn:Hr; [|done].
  apply int_rem_Some in Hr. subst r.
  pose proof (Z.rem_bound_abs a b Hb).
  rewrite <- (gcd_loop_ref b (Z.rem a b)).
  destruct (gcd_fuel_bound (Z.rem a b)) as [Hk Hf].
  symmetry. eapply gcd_loop_log; [exact Hk|lia|lia].
Qed.

Lemma gcd_ok_zero a : gcd_ok a 0.
Proof. exists a. split; [done|]. by rewrite Z.gcd_0_r. Qed.

Lemma gcd_ok_step a b :
  b ≠ 0 → ¬ (a = INT_MIN ∧ b = -1) → gcd_ok b (Z.rem a b) → gcd_ok a b.
Proof.
  intros Hb Ht (g & Hg & Habs). exists g.
  rewrite gcd_ref_step, int_rem_defined by done.
  split; [done|]. by rewrite Habs, gcd_rem_swap.
Qed.

(** Away from [INT_MIN] no turn is killed. *)
Lemma gcd_ok_inside (n : nat) : ∀ a b,
  (Z.abs_nat b < n)%nat → INT_MIN < a → Z.abs b ≤ INT_MAX → gcd_ok a b.
Proof.
  induction n as [|n IH]; intros a b Hn Ha Hb; [lia|].
  destruct (Z.eq_dec b 0) as [->|Hnz]; [apply gcd_ok_zero|].
  pose proof (Z.rem_bound_abs a b Hnz) as Hm.
  apply gcd_ok_step; [done|unfold INT_MIN in *; lia|].
  apply IH; unfold INT_MIN, INT_MAX in *; lia.
Qed.

Lemma gcd_ok_from_min b :
  INT_MIN ≤ b ≤ INT_MAX → b ≠ -1 → gcd_ok INT_MIN b.
Proof.
  intros Hb Hm1.
  destruct (Z.eq_dec b 0) as [->|Hnz]; [apply gcd_ok_zero|].
  apply gcd_ok_step; [done|tauto|].
  destruct (Z.eq_dec b INT_MIN) as [->|Hmin].
  - change (Z.rem INT_MIN INT_MIN) with 0. apply gcd_ok_zero.
  - pose proof (Z.rem_bound_abs INT_MIN b Hnz) as Hm.
    apply (gcd_ok_inside (Datatypes.S (Z.abs_nat (Z.rem INT_MIN b))));
      unfold INT_MIN, INT_MAX in *; lia.
Qed.

Lemma gcd_ok_to_min a :
  INT_MIN < a ≤ INT_MAX → a ≠ -1 → gcd_ok a INT_MIN.
Proof.
  intros Ha Hm1.
  apply gcd_ok_step; [done|unfold INT_MIN in *; lia|].
  assert (Z.rem a INT_MIN = a) as ->
    by (apply Z.rem_small_iff; unfold INT_MIN, INT_MAX in *; lia).
  apply gcd_ok_from_min; [unfold INT_MIN in *; lia|done].
Qed.

(** X1.  On two [int]s the loop of [gcd] is killed by [INT_MIN % -1]
    exactly for the operands [(INT_MIN, -1)] and [(-1, INT_MIN)]; in
    every other case it returns the greatest common divisor up to its
    sign. *)
Theorem gcd_up_to_sign (a b : Z) :
  INT_MIN ≤ a ≤ INT_MAX →
  INT_MIN ≤ b ≤ INT_MAX →
  (gcd a b = None ↔ (a = INT_MIN ∧ b = -1) ∨ (a = -1 ∧ b = INT_MIN)) ∧
  (∀ g, gcd a b = Some g → Z.abs g = Z.gcd a b).
Proof.
  intros Ha Hb.
  assert (Hcases : ((a = INT_MIN ∧ b = -1) ∨ (a = -1 ∧ b = INT_MIN)) ∧
                   gcd a b = None
                   ∨ ¬ ((a = INT_MIN ∧ b = -1) ∨ (a = -1 ∧ b = INT_MIN)) ∧
                     ∃ g, gcd a b = Some g ∧ Z.abs g = Z.gcd a b).
  { destruct (Z.eq_dec a INT_MIN) as [->|Hamin].
    - destruct (Z.eq_dec b (-1)) as [->|Hb1]; [left; split; [tauto|done]|].
      right. split; [unfold INT_MIN; lia|].
      unfold gcd. cbn zeta. rewrite !to_int_small by done.
      rewrite gcd_loop_ref. by apply gcd_ok_from_min.
    - destruct (Z.eq_dec b INT_MIN) as [->|Hbmin].
      + destruct (Z.eq_dec a (-1)) as [->|Ha1]; [left; split; [tauto|done]|].
        right. split; [unfold INT_MIN in *; lia|].
        unfold gcd. cbn zeta. rewrite !to_int_small by done.
        rewrite gcd_loop_ref. apply gcd_ok_to_min; [lia|done].
      + right. split; [tauto|].
        unfold gcd. cbn zeta. rewrite !to_int_small by done.
        rewrite gcd_loop_ref.
        apply (gcd_ok_inside (Datatypes.S (Z.abs_nat b)));
          unfold INT_MIN, INT_MAX in *; lia. }
  destruct Hcases as [[Hpair Hnone]|[Hno (g & Hg & Habs)]].
  - split; [by split|]. intros g Hg. congruence.
  - split.
    + split; [congruence|tauto].
    + intros g' Hg'. congruence.
Qed.

(** X2.  With intervals that fit an [int], the sleep duration is
    positive and no longer than any nonzero interval. *)
Theorem longest_sleep_within_interval (status : status_line) (b : block) :
  wf_status status →
  Forall (λ b, 0 ≤ interval b ≤ INT_MAX) (blocks status) →
  b ∈ blocks status →
  interval b ≠ 0 →
  0 < longest_sleep status ≤ interval b.
Proof.
  intros Hwf Hnn Hin Hnz. rewrite (longest_sleep_fold _ Hwf Hnn). cbn zeta.
  pose proof (Forall_interval_nonneg _ Hnn) as Hnn'.
  assert (Hpos : 0 < gcd_list (interval <$> blocks status)).
  { apply gcd_list_pos; [done|]. apply Exists_exists.
    exists (interval b). split; [|done]. by apply list_elem_of_fmap_2. }
  replace (0 <? _) with true by (symmetry; by apply Z.ltb_lt).
  split; [done|].
  pose proof (gcd_list_divides (interval <$> blocks status)) as Hd.
  rewrite Forall_forall in Hd. rewrite Forall_forall in Hnn.
  apply Z.divide_pos_le.
  - specialize (Hnn b Hin). cbn in Hnn. lia.
  - apply Hd. by apply list_elem_of_fmap_2.
Qed.

Lemma gcd_list_permutation l1 l2 : l1 ≡ₚ l2 → gcd_list l1 = gcd_list l2.
Proof.
  induction 1 as [|v l l' _ IH|v v' l|l l' l'' _ IH1 _ IH2].
  - done.
  - by rewrite !gcd_list_cons, IH.
  - rewrite !gcd_list_cons, !Z.gcd_assoc. f_equal. apply Z.gcd_comm.
  - congruence.
Qed.

(** X3.  With intervals that fit an [int], the sleep duration does
    not depend on the order in which the blocks are configured. *)
Theorem longest_sleep_permutation (s1 s2 : status_line) :
  wf_status s1 → wf_status s2 →
  Forall (λ b, 0 ≤ interval b ≤ INT_MAX) (blocks s1) →
  blocks s1 ≡ₚ blocks s2 →
  longest_sleep s1 = longest_sleep s2.
Proof.
  intros Hwf1 Hwf2 Hnn Hperm.
  assert (Hnn2 : Forall (λ b, 0 ≤ interval b ≤ INT_MAX) (blocks s2))
    by by rewrite <- Hperm.
  rewrite (longest_sleep_fold _ Hwf1 Hnn), (longest_sleep_fold _ Hwf2 Hnn2).
  cbn zeta.
  by rewrite (gcd_list_permutation _ _ (fmap_Permutation interval _ _ Hperm)).
Qed.

(** ** Further properties of need_update *)

Section NeedUpdateMore.
Context {E : Externals}.

(** The whole decision: a block needs an update exactly when it has
    never run, or has an interval and is due on the wrapped clock, or a
    signal was caught that is the block's own or finds a click on
    it. *)
Lemma need_update_table (w : world) (b : block) :
  fst (need_update w b) = true ↔
    last_update b = 0 ∨
    (interval b ≠ 0 ∧
     to_long (wrap (wrap (last_update b + interval b)
                    - wrap (clock (ticks w)))) ≤ 0) ∨
    (caughtsig w ≠ 0 ∧
     (caughtsig w = signal b ∨ pending (bclick b) = true)).
Proof.
  rewrite need_update_is_or. cbn zeta.
  rewrite checks_first_time, checks_outdated, checks_signaled, checks_clicked.
  rewrite !orb_true_iff.
  destruct (Z.eqb_spec (last_update b) 0) as [Hl|Hl];
    destruct (Z.eqb_spec (interval b) 0) as [Hi|Hi];
    destruct (Z.eqb_spec (caughtsig w) 0) as [Hs|Hs];
    rewrite ?Z.leb_le, ?Z.eqb_eq; intuition congruence.
Qed.

(** [need_update] reads the clock once when the block has an interval
    and not at all otherwise; it changes neither [caughtsig] nor the
    record of collaborator calls. *)
Lemma need_update_effects (w : world) (b : block) :
  snd (need_update w b) =
    World (caughtsig w)
          (if interval b =? 0 then ticks w else Datatypes.S (ticks w))
          (trace w).
Proof.
  unfold need_update, need_update_checks, time.
  destruct w as [s k tr]. cbn [caughtsig ticks trace].
  destruct (interval b =? 0); cbn; by destruct (negb (s =? 0)).
Qed.

Lemma wrap_small v : 0 ≤ v < 2 ^ long_bits → wrap v = v.
Proof. intros. unfold wrap. by apply Z.mod_small. Qed.

Lemma wrap_negative v :
  - 2 ^ long_bits ≤ v < 0 → wrap v = v + 2 ^ long_bits.
Proof.
  intros. unfold wrap.
  rewrite <- (Z_mod_plus_full v 1 (2 ^ long_bits)), Z.mul_1_l.
  apply Z.mod_small. lia.
Qed.

(** X6.  While the clock and the due time stay below half the word
    range, [outdated] is the plain comparison of the due time with the
    clock. *)
Theorem outdated_plain (w : world) (b : block) :
  0 < long_bits →
  interval b ≠ 0 →
  0 ≤ clock (ticks w) < 2 ^ (long_bits - 1) →
  0 ≤ last_update b + interval b < 2 ^ (long_bits - 1) →
  outdated (fst (need_update_checks w b)) = true ↔
    last_update b + interval b ≤ clock (ticks w).
Proof.
  intros Hbits Hiv Hnow Hnext.
  pose proof (half_modulus Hbits) as HM.
  rewrite checks_outdated.
  apply Z.eqb_neq in Hiv. rewrite Hiv. rewrite Z.leb_le.
  rewrite (wrap_small (clock _)), (wrap_small (_ + _)) by lia.
  set (d := last_update b + interval b - clock (ticks w)).
  unfold to_long.
  destruct (Z_lt_le_dec d 0) as [Hneg|Hpos].
  - rewrite wrap_negative by lia.
    destruct (Z.ltb_spec (d + 2 ^ long_bits) (2 ^ (long_bits - 1))); lia.
  - rewrite wrap_small by lia.
    destruct (Z.ltb_spec d (2 ^ (long_bits - 1))); lia.
Qed.

End NeedUpdateMore.

(** ** Further properties of update_status_line *)

Lemma StronglySorted_lt_snoc (l : list nat) (n : nat) :
  StronglySorted lt l → Forall (λ i, (i < n)%nat) l →
  StronglySorted lt (l ++ [n]).
Proof.
  induction 1 as [|a l Hs IH Ha]; intros Hlt; cbn.
  - repeat constructor.
  - inversion Hlt; subst. constructor; [by apply IH|].
    apply Forall_app. split; [done|]. by repeat constructor.
Qed.

Section PassMore.
Context {E : Externals}.

Lemma pass_state_caughtsig w status i :
  caughtsig (fst (pass_state w status i)) = caughtsig w.
Proof.
  unfold pass_state.
  by destruct (for_range_update_frame i 0 (w, status)) as (_ & _ & ->).
Qed.

(** Conditions under which the loop calls [block_update] on block
    [i], whatever happened at the indices before it. *)
Lemma dispatched_when w status i :
  nonempty (command (at_index (blocks status) i)) = true →
  (let u := at_index (updated_blocks status) i in
   last_update u = 0 ∨
   (caughtsig w ≠ 0 ∧ (caughtsig w = signal u ∨ pending (bclick u) = true))) →
  dispatched w status i = true.
Proof.
  intros Hcmd Hwhy. unfold dispatched. rewrite Hcmd. cbn [andb].
  rewrite need_update_is_or. cbn zeta.
  rewrite checks_first_time, checks_signaled, checks_clicked.
  rewrite pass_state_caughtsig. cbn zeta in Hwhy.
  destruct Hwhy as [Hl | [Hs [Heq | Hp]]].
  - by rewrite Hl.
  - apply Z.eqb_neq in Hs. apply Z.eqb_eq in Heq. rewrite Hs, Heq.
    by rewrite !orb_true_r.
  - apply Z.eqb_neq in Hs. rewrite Hs, Hp. by rewrite !orb_true_r.
Qed.

(** X7.  In a pass over a well-formed status line, [block_update] is
    called on every block that has a command and either has never run,
    or is configured with the signal caught, or holds a click while a
    signal is caught. *)
Theorem pass_dispatches (w : world) (status : status_line) (i : nat) :
  wf_status status →
  (i < num status)%nat →
  command (at_index (blocks status) i) ≠ "" →
  (let u := at_index (updated_blocks status) i in
   last_update u = 0 ∨
   (caughtsig w ≠ 0 ∧ (caughtsig w = signal u ∨ pending (bclick u) = true))) →
  ∃ evs, trace (fst (update_status_line w status)) = trace w ++ evs ∧
         EvUpdate i (dispatch_arg status i) ∈ evs.
Proof.
  intros Hwf Hi Hcmd Hwhy.
  destruct (update_status_line_inv w status Hwf) as (_ & _ & _ & _ & Htr & _).
  exists (pass_events w status (num status)). split; [done|].
  apply elem_of_pass_events. split; [done|]. split; [|done].
  apply dispatched_when; [|done].
  destruct (nonempty _) eqn:Hne; [done|]. by apply nonempty_spec in Hne.
Qed.

Lemma for_range_fixed {S : Type} (body : nat → S → S) (s : S) n : ∀ start,
  (∀ i, (start ≤ i < start + n)%nat → body i s = s) →
  for_range start n body s = s.
Proof.
  induction n as [|n IH]; intros start Hfix; [done|].
  cbn [for_range]. rewrite Hfix by lia. apply IH. intros i Hi. apply Hfix. lia.
Qed.

(** X8.  With no signal caught, a pass over blocks that each either
    have no command or have run before and have no interval changes
    nothing: no collaborator call, no clock reading, the same status
    line. *)
Theorem quiet_pass_changes_nothing (w : world) (status : status_line) :
  caughtsig w = 0 →
  (∀ i, (i < num status)%nat →
     command (at_index (blocks status) i) = "" ∨
     (last_update (at_index (updated_blocks status) i) ≠ 0 ∧
      interval (at_index (updated_blocks status) i) = 0)) →
  update_status_line w status = (w, status).
Proof.
  intros Hs Hq. unfold update_status_line.
  rewrite for_range_fixed.
  - by rewrite Hs.
  - intros i Hi. unfold update_body.
    destruct (Hq i ltac:(lia)) as [->|[Hl Hi0]]; [done|].
    destruct (negb _); [done|].
    unfold need_update, need_update_checks.
    apply Z.eqb_neq in Hl. rewrite Hl, Hi0. cbn. rewrite Hs. done.
Qed.

Lemma update_indices_pass w status n :
  Forall (λ i, (i < n)%nat) (update_indices (pass_events w status n)) ∧
  StronglySorted lt (update_indices (pass_events w status n)).
Proof.
  induction n as [|n [IHlt IHs]]; [by split; constructor|].
  rewrite pass_events_S. unfold update_indices in *. rewrite omap_app.
  destruct (dispatched w status n); cbn [omap].
  - split.
    + apply Forall_app. split; [|by repeat constructor].
      eapply Forall_impl; [exact IHlt|]. intros; cbn in *; lia.
    + by apply StronglySorted_lt_snoc.
  - rewrite app_nil_r. split; [|done].
    eapply Forall_impl; [exact IHlt|]. intros; cbn in *; lia.
Qed.

(** X9.  The calls of [block_update] made by a pass come in strictly
    increasing index order, so each block is updated at most once, and
    a pass makes no other collaborator call. *)
Theorem pass_updates_in_order (w : world) (status : status_line) :
  wf_status status →
  ∃ evs, trace (fst (update_status_line w status)) = trace w ++ evs ∧
         StronglySorted lt (update_indices evs) ∧
         Forall (λ i, (i < num status)%nat) (update_indices evs) ∧
         length evs = length (update_indices evs).
Proof.
  intros Hwf.
  destruct (update_status_line_inv w status Hwf) as (_ & _ & _ & _ & Htr & _).
  exists (pass_events w status (num status)). split; [done|].
  destruct (update_indices_pass w status (num status)) as [Hlt Hs].
  split; [done|]. split; [done|].
  clear. induction (num status) as [|n IH]; [done|].
  rewrite pass_events_S. unfold update_indices in *.
  rewrite omap_app, !length_app, IH.
  by destruct (dispatched w status n).
Qed.

Lemma update_body_ticks i ws :
  (ticks (fst ws) ≤ ticks (fst (update_body i ws)) ≤ ticks (fst ws) + 1)%nat.
Proof.
  destruct ws as [w st]. unfold update_body.
  destruct (negb _); [cbn; lia|].
  pose proof (need_update_effects w (at_index (updated_blocks st) i)) as He.
  destruct (need_update w (at_index (updated_blocks st) i)) as [[|] w'];
    cbn [fst snd] in *; subst w'; cbn [emit ticks];
    destruct (interval _ =? 0); lia.
Qed.

Lemma for_range_ticks n : ∀ start ws,
  (ticks (fst ws) ≤ ticks (fst (for_range start n update_body ws))
   ≤ ticks (fst ws) + n)%nat.
Proof.
  induction n as [|n IH]; intros start ws; [cbn; lia|].
  cbn [for_range].
  pose proof (IH (Datatypes.S start) (update_body start ws)).
  pose proof (update_body_ticks start ws). lia.
Qed.

(** X5.  A pass reads the clock at most once per block: the number of
    [time] readings grows by no more than [num], and never goes
    back. *)
Theorem pass_reads_clock_once_per_block (w : world) (status : status_line) :
  (ticks w ≤ ticks (fst (update_status_line w status))
   ≤ ticks w + num status)%nat.
Proof.
  rewrite update_status_line_unfold. cbn zeta. unfold pass_state.
  pose proof (for_range_ticks (num status) 0 (w, status)) as Ht.
  cbn [fst] in *.
  by destruct (0 <? caughtsig (fst (for_range 0 (num status) update_body
                                       (w, status)))).
Qed.

End PassMore.

(** ** Further properties of handle_click *)

Lemma same_but_click_refl b : same_but_click b b.
Proof. by destruct b. Qed.

Lemma set_bclick_twice b c c' : set_bclick (set_bclick b c) c' = set_bclick b c'.
Proof. done. Qed.

Section ClickMore.
Context {E : Externals}.

Lemma find_block_touches nm inst c n : ∀ start status,
  ∃ i, ∀ j,
    (j ≠ i → updated_blocks (find_block start n nm inst c status) !! j
             = updated_blocks status !! j) ∧
    (∀ b, updated_blocks status !! j = Some b →
       ∃ b', updated_blocks (find_block start n nm inst c status) !! j = Some b' ∧
             same_but_click b b').
Proof.
  induction n as [|n IH]; intros start status.
  - exists 0%nat. intros j. split; [done|]. intros b Hb. exists b.
    split; [done|]. apply same_but_click_refl.
  - cbn [find_block].
    destruct (strcmp_eq0 _ nm && strcmp_eq0 _ inst); [|apply IH].
    exists start. intros j. cbn [set_updated_blocks updated_blocks]. split.
    + intros Hne. by rewrite list_lookup_insert_ne.
    + intros b Hb. destruct (decide (j = start)) as [->|Hne].
      * rewrite (at_index_lookup _ _ _ Hb).
        rewrite list_lookup_insert_eq by (by eapply lookup_lt_Some).
        eexists. split; [done|]. done.
      * rewrite list_lookup_insert_ne by done. exists b.
        split; [done|]. apply same_but_click_refl.
Qed.

(** X10.  Handling a click changes at most one runtime block, and of
    that block nothing but the click. *)
Theorem handle_click_touches_one_click (input : list ascii)
    (status : status_line) :
  ∃ i, ∀ j,
    (j ≠ i → updated_blocks (handle_click input status) !! j
             = updated_blocks status !! j) ∧
    (∀ b, updated_blocks status !! j = Some b →
       ∃ b', updated_blocks (handle_click input status) !! j = Some b' ∧
             same_but_click b b').
Proof.
  unfold handle_click. destruct (nonempty _ || nonempty _).
  - apply find_block_touches.
  - exists 0%nat. intros j. split; [done|]. intros b Hb. exists b.
    split; [done|]. apply same_but_click_refl.
Qed.

Lemma find_block_below nm inst c n : ∀ start status j,
  (j < start)%nat →
  updated_blocks (find_block start n nm inst c status) !! j
  = updated_blocks status !! j.
Proof.
  induction n as [|n IH]; intros start status j Hj; [done|].
  cbn [find_block].
  destruct (strcmp_eq0 _ nm && strcmp_eq0 _ inst).
  - cbn. rewrite list_lookup_insert_ne by lia. done.
  - apply IH. lia.
Qed.

Lemma find_block_idem nm inst c n : ∀ start status,
  find_block start n nm inst c (find_block start n nm inst c status)
  = find_block start n nm inst c status.
Proof.
  induction n as [|n IH]; intros start status; [done|].
  cbn [find_block].
  destruct (strcmp_eq0 (name (at_index (updated_blocks status) start)) nm &&
            strcmp_eq0 (instance (at_index (updated_blocks status) start)) inst)
    eqn:Htest.
  - cbn [find_block set_updated_blocks updated_blocks num blocks].
    set (u := at_index (updated_blocks status) start) in *.
    destruct (decide (start < length (updated_blocks status))%nat) as [Hlt|Hge].
    + assert (Hat : at_index (<[start:=set_bclick u c]> (updated_blocks status))
                             start = set_bclick u c)
        by (unfold at_index; by apply list_lookup_total_insert_eq).
      rewrite Hat.
      change (name (set_bclick u c)) with (name u).
      change (instance (set_bclick u c)) with (instance u).
      rewrite Htest, list_insert_insert_eq. done.
    + rewrite !list_insert_ge by lia. fold u. rewrite Htest.
      cbn. rewrite ?list_insert_ge by lia. done.
  - cbn [find_block].
    assert (Hsame : at_index (updated_blocks
                (find_block (Datatypes.S start) n nm inst c status)) start
              = at_index (updated_blocks status) start).
    { unfold at_index. rewrite !list_lookup_total_alt.
      by rewrite find_block_below by lia. }
    rewrite Hsame, Htest. apply IH.
Qed.

(** X11.  Handling the same click a second time changes nothing
    more. *)
Theorem handle_click_idempotent (input : list ascii) (status : status_line) :
  handle_click input (handle_click input status) = handle_click input status.
Proof.
  unfold handle_click. destruct (nonempty _ || nonempty _) eqn:Hany; [|done].
  destruct (find_block_frame (cstr_at (p_json (read_click input))
                                      (p_name (read_click input)))
              (cstr_at (p_json (read_click input)) (p_instance (read_click input)))
              (p_click (read_click input)) (num status) 0 status)
    as (_ & -> & _).
  apply find_block_idem.
Qed.

(** The hit case of [handle_click], as an equation. *)
Lemma handle_click_hit input status i :
  (i < num status)%nat →
  ¬ (click_name input = "" ∧ click_instance input = "") →
  click_matches input (at_index (updated_blocks status) i) →
  (∀ j, (j < i)%nat →
     ¬ click_matches input (at_index (updated_blocks status) j)) →
  handle_click input status =
    set_updated_blocks status
      (<[i := set_bclick (at_index (updated_blocks status) i)
                         (p_click (read_click input))]>
         (updated_blocks status)).
Proof.
  intros Hi Hne Hm Hfirst.
  unfold handle_click, click_matches, click_name, click_instance in *.
  set (p := read_click input) in *.
  set (nm := cstr_at (p_json p) (p_name p)) in *.
  set (inst := cstr_at (p_json p) (p_instance p)) in *.
  destruct (nonempty nm || nonempty inst) eqn:Hany.
  2:{ apply orb_false_elim in Hany as [H1 H2].
      apply nonempty_spec in H1, H2. tauto. }
  apply find_block_hit; [lia|done|]. intros j Hj. apply Hfirst. lia.
Qed.

(** X12.  A click that names a block with a command reaches the
    update collaborator on the next pass, provided a signal is still
    recorded as caught and the button field is not empty: the block is
    updated from its config carrying that click, and holds an all-zero
    click afterwards. *)
Theorem click_reaches_update (input : list ascii) (w : world)
    (status : status_line) (i : nat) :
  wf_status status →
  (i < num status)%nat →
  ¬ (click_name input = "" ∧ click_instance input = "") →
  click_matches input (at_index (updated_blocks status) i) →
  (∀ j, (j < i)%nat →
     ¬ click_matches input (at_index (updated_blocks status) j)) →
  command (at_index (blocks status) i) ≠ "" →
  caughtsig w ≠ 0 →
  pending (p_click (read_click input)) = true →
  let post := update_status_line w (handle_click input status) in
  ∃ evs, trace (fst post) = trace w ++ evs ∧
    EvUpdate i (set_bclick (at_index (blocks status) i)
                           (p_click (read_click input))) ∈ evs ∧
    ∃ b, updated_blocks (snd post) !! i = Some b ∧ bclick b = zero_click.
Proof.
  intros Hwf Hi Hne Hm Hfirst Hcmd Hs Hp post. subst post.
  pose proof (handle_click_wf input status Hwf) as Hwf'.
  rewrite (handle_click_hit input status i Hi Hne Hm Hfirst) in *.
  set (st' := set_updated_blocks status _) in *.
  assert (Hlen : (i < length (updated_blocks status))%nat)
    by (destruct Hwf; lia).
  assert (Hu : at_index (updated_blocks st') i =
               set_bclick (at_index (updated_blocks status) i)
                          (p_click (read_click input))).
  { subst st'. cbn. unfold at_index. by rewrite list_lookup_total_insert_eq. }
  assert (Hd : dispatched w st' i = true).
  { apply dispatched_when.
    - subst st'. cbn [set_updated_blocks blocks].
      destruct (nonempty _) eqn:Hn; [done|]. by apply nonempty_spec in Hn.
    - cbn zeta. rewrite Hu. cbn [bclick set_bclick]. right. split; [done|].
      by right. }
  destruct (update_status_line_inv w st' Hwf') as (_ & _ & _ & Hres & Htr & _).
  exists (pass_events w st' (num st')). split; [done|]. split.
  - apply elem_of_pass_events. split; [done|]. split; [done|].
    unfold dispatch_arg. rewrite Hu. done.
  - eexists. split; [apply (Hres i Hi)|]. unfold pass_result. by rewrite Hd.
Qed.

End ClickMore.

(** ** Further properties of parse_click and of the read buffer *)

Lemma until_NUL_span (buf : list ascii) n : ∀ start,
  (∀ k, (k < n)%nat → ∃ c, buf !! (start + k)%nat = Some c ∧ c ≠ NUL) →
  buf !! (start + n)%nat = Some NUL →
  until_NUL (drop start buf) = take n (drop start buf).
Proof.
  induction n as [|n IH]; intros start Hspan Hend.
  - rewrite Nat.add_0_r in Hend. rewrite (drop_S _ _ _ Hend). done.
  - destruct (Hspan 0%nat ltac:(lia)) as (c & Hc & Hnz).
    rewrite Nat.add_0_r in Hc. rewrite (drop_S _ _ _ Hc).
    cbn [until_NUL take].
    destruct (Ascii.eqb_spec c NUL) as [|_]; [done|].
    f_equal. apply IH.
    + intros k Hk. destruct (Hspan (Datatypes.S k) ltac:(lia)) as (c' & Hc' & Hnz').
      exists c'. split; [|done]. rewrite <- Hc'. f_equal. lia.
    + rewrite <- Hend. f_equal. lia.
Qed.

Lemma fread_json_length input : length (fread_json input) = 1024%nat.
Proof.
  unfold fread_json. cbn zeta.
  rewrite length_app, length_replicate, length_take. lia.
Qed.

Section ParseMore.
Context {E : Externals}.

Lemma store_length buf i v : length (store buf i v) = length buf.
Proof. unfold store. destruct (0 <=? i); [apply length_insert|done]. Qed.

Lemma store_lookup_ne buf i v k :
  (i < 0 ∨ Z.to_nat i ≠ k) → store buf i v !! k = buf !! k.
Proof.
  intros Hne. unfold store. destruct (Z.leb_spec 0 i); [|done].
  apply list_lookup_insert_ne. lia.
Qed.

Lemma store_lookup_eq buf i v :
  0 ≤ i → (Z.to_nat i < length buf)%nat →
  store buf i v !! Z.to_nat i = Some v.
Proof.
  intros Hi Hlt. unfold store. destruct (Z.leb_spec 0 i); [|lia].
  by apply list_lookup_insert_eq.
Qed.

Lemma load_store_eq buf i : load (store buf i NUL) i = NUL.
Proof.
  unfold load. destruct (Z.leb_spec 0 i) as [Hi|]; [|done].
  destruct (decide (Z.to_nat i < length buf)%nat).
  - by rewrite store_lookup_eq.
  - rewrite lookup_ge_None_2; [done|]. rewrite store_length. lia.
Qed.

Lemma load_store_keeps buf i j :
  load buf i = NUL → load (store buf j NUL) i = NUL.
Proof.
  intros Hl. destruct (decide (i = j)) as [->|Hne]; [apply load_store_eq|].
  unfold load in *. destruct (Z.leb_spec 0 i) as [Hi|]; [|done].
  rewrite store_lookup_ne; [done|]. lia.
Qed.

Lemma cstr_at_NUL buf start : load buf start = NUL → cstr_at buf start = "".
Proof.
  unfold load, cstr_at. destruct (0 <=? start); [|done].
  destruct (buf !! Z.to_nat start) as [c|] eqn:Hc; simpl.
  - intros Hn. subst c. rewrite (drop_S _ _ _ Hc). done.
  - intros _. rewrite drop_ge; [done|]. by apply lookup_ge_None.
Qed.

(** X13.  When [json_parse] finds neither a name nor an instance (both
    spans have length 0) the click is dropped: both strings read as
    empty and the status line is returned as it was. *)
Theorem nameless_click_dropped (input : list ascii) (status : status_line) :
  snd (json_parse (fread_json input) "name") = 0 →
  snd (json_parse (fread_json input) "instance") = 0 →
  click_name input = "" ∧ click_instance input = "" ∧
  handle_click input status = status.
Proof.
  intros Hn Hi.
  assert (Hboth : click_name input = "" ∧ click_instance input = "").
  { unfold click_name, click_instance, read_click, parse_click.
    destruct (json_parse (fread_json input) "y") as [yst ylen].
    destruct (json_parse (fread_json input) "x") as [xst xlen].
    destruct (json_parse (fread_json input) "button") as [bst blen].
    destruct (json_parse (fread_json input) "instance") as [ist ilen].
    destruct (json_parse (fread_json input) "name") as [nst nlen].
    cbn [snd] in Hn, Hi. subst nlen ilen. rewrite !Z.add_0_r.
    cbn [p_json p_name p_instance]. split; apply cstr_at_NUL.
    - apply load_store_keeps, load_store_eq.
    - apply load_store_eq. }
  split; [apply Hboth|]. split; [apply Hboth|].
  destruct Hboth as [Hnm Hinst].
  unfold handle_click. unfold click_name, click_instance in Hnm, Hinst.
  by rewrite Hnm, Hinst.
Qed.

(** A string of the buffer after the two stores of [parse_click], one
    of which terminates it while the other falls outside it. *)
Lemma cstr_after_stores (json : list ascii) (a t start len : Z) :
  0 ≤ start → 0 ≤ len → start + len < Z.of_nat (length json) →
  (a = start + len ∨ t = start + len) →
  (a < start ∨ start + len ≤ a) →
  (t < start ∨ start + len ≤ t) →
  Forall (λ c, c ≠ NUL) (take (Z.to_nat len) (drop (Z.to_nat start) json)) →
  cstr_at (store (store json a NUL) t NUL) start =
    string_of_list_ascii (take (Z.to_nat len) (drop (Z.to_nat start) json)).
Proof.
  intros Hs Hl Hin Hterm Ha Ht Hnz.
  unfold cstr_at. destruct (Z.leb_spec 0 start); [|lia]. f_equal.
  set (buf := store (store json a NUL) t NUL).
  assert (Hkeep : ∀ k, (k < Z.to_nat len)%nat →
            buf !! (Z.to_nat start + k)%nat = json !! (Z.to_nat start + k)%nat).
  { intros k Hk. subst buf. rewrite !store_lookup_ne; [done|lia|lia]. }
  assert (Hend : buf !! (Z.to_nat start + Z.to_nat len)%nat = Some NUL).
  { subst buf. replace (Z.to_nat start + Z.to_nat len)%nat
      with (Z.to_nat (start + len)) by lia.
    destruct Hterm as [->| ->].
    - destruct (decide (t = start + len)) as [->|Hne].
      + apply store_lookup_eq; [lia|]. rewrite store_length. lia.
      + rewrite store_lookup_ne by lia. apply store_lookup_eq; lia.
    - apply store_lookup_eq; [lia|]. rewrite store_length. lia. }
  rewrite until_NUL_span with (n := Z.to_nat len); [| |done].
  - apply list_eq. intros k.
    destruct (decide (k < Z.to_nat len)%nat).
    + rewrite !lookup_take_lt, !lookup_drop by done. by apply Hkeep.
    + by rewrite !lookup_take_ge by lia.
  - intros k Hk. rewrite Hkeep by done.
    rewrite Forall_lookup in Hnz.
    destruct (json !! (Z.to_nat start + k)%nat) as [c|] eqn:Hc.
    + exists c. split; [done|]. apply (Hnz k).
      by rewrite lookup_take_lt, lookup_drop.
    + apply lookup_ge_None in Hc. lia.
Qed.

(** X14.  When the name and instance spans that [json_parse] returns
    lie inside the buffer, hold no NUL and do not contain each other's
    terminator, the strings matched against the blocks are exactly
    the bytes of those spans. *)
Theorem click_strings_are_spans (input : list ascii) :
  let json := fread_json input in
  let nst := fst (json_parse json "name") in
  let nlen := snd (json_parse json "name") in
  let ist := fst (json_parse json "instance") in
  let ilen := snd (json_parse json "instance") in
  let span st len := take (Z.to_nat len) (drop (Z.to_nat st) json) in
  0 ≤ nst → 0 ≤ nlen → nst + nlen < 1024 →
  0 ≤ ist → 0 ≤ ilen → ist + ilen < 1024 →
  (ist + ilen < nst ∨ nst + nlen ≤ ist + ilen) →
  (nst + nlen < ist ∨ ist + ilen ≤ nst + nlen) →
  Forall (λ c, c ≠ NUL) (span nst nlen) →
  Forall (λ c, c ≠ NUL) (span ist ilen) →
  click_name input = string_of_list_ascii (span nst nlen) ∧
  click_instance input = string_of_list_ascii (span ist ilen).
Proof.
  intros json nst nlen ist ilen span.
  intros Hn1 Hn2 Hn3 Hi1 Hi2 Hi3 Hout1 Hout2 Hz1 Hz2.
  pose proof (fread_json_length input) as Hlen.
  subst nst nlen ist ilen span json.
  unfold click_name, click_instance, read_click, parse_click.
  destruct (json_parse (fread_json input) "y") as [yst ylen].
  destruct (json_parse (fread_json input) "x") as [xst xlen].
  destruct (json_parse (fread_json input) "button") as [bst blen].
  destruct (json_parse (fread_json input) "instance") as [ist ilen].
  destruct (json_parse (fread_json input) "name") as [nst nlen].
  cbn [fst snd p_json p_name p_instance] in *.
  split.
  - apply cstr_after_stores; (lia || done).
  - apply cstr_after_stores; (lia || done).
Qed.

(** X15.  The number of bytes [parse_click] copies into an array of
    [cap] bytes: a length that fits is copied whole, and a negative
    length, read as a huge unsigned one, copies [cap - 1] bytes. *)
Theorem copy_len_by_cases (len : Z) (cap : nat) :
  0 < long_bits →
  (0 < cap)%nat →
  Z.of_nat cap ≤ 2 ^ long_bits →
  (0 ≤ len ≤ Z.of_nat cap - 1 → copy_len len cap = Z.to_nat len) ∧
  (Z.of_nat cap - 1 - 2 ^ long_bits ≤ len < 0 →
     copy_len len cap = (cap - 1)%nat).
Proof.
  intros Hbits Hcap Hfit. unfold copy_len, MIN. split; intros Hlen.
  - rewrite wrap_small by lia.
    destruct (Z.ltb_spec len (Z.of_nat cap - 1)); lia.
  - rewrite wrap_negative by lia.
    destruct (Z.ltb_spec (len + 2 ^ long_bits) (Z.of_nat cap - 1)); lia.
Qed.

End ParseMore.

(** X16.  The buffer a click is read into always has 1024 bytes: the
    first 1023 bytes of the input at most, then NULs to the end, so
    its last byte is NUL whatever the input. *)
Theorem fread_json_buffer (input : list ascii) :
  length (fread_json input) = 1024%nat ∧
  fread_json input !! 1023%nat = Some NUL ∧
  (∀ k, (k < 1023)%nat → (k < length input)%nat →
        fread_json input !! k = input !! k) ∧
  (∀ k, (length input ≤ k < 1024)%nat → fread_json input !! k = Some NUL).
Proof.
  unfold fread_json. cbn zeta.
  assert (Htl : length (take 1023 input) = (1023 `min` length input)%nat)
    by apply length_take.
  assert (Hpad : ∀ k, (length (take 1023 input) ≤ k < 1024)%nat →
            (take 1023 input ++ replicate (1024 - length (take 1023 input)) NUL)
              !! k = Some NUL).
  { intros k Hk. rewrite lookup_app_r by lia.
    apply lookup_replicate_2. lia. }
  split; [|split; [|split]].
  - rewrite length_app, length_replicate. lia.
  - apply Hpad. lia.
  - intros k Hk Hin. rewrite lookup_app_l by lia. by apply lookup_take_lt.
  - intros k Hk. apply Hpad. lia.
Qed.

(** ** Further properties of sched_start *)

Section LoopMore.
Context {E : Externals}.

Lemma sleeps_app a b : sleeps (a ++ b) = sleeps a ++ sleeps b.
Proof. apply List.filter_app. Qed.

Lemma sleeps_pass_events w status n : sleeps (pass_events w status n) = [].
Proof.
  unfold sleeps.
  induction n as [|n IH]; [done|].
  rewrite pass_events_S, List.filter_app, IH.
  by destruct (dispatched w status n).
Qed.

(** What one turn adds to the record of calls. *)
Lemma sched_turn_trace t w status wk :
  trace (fst (sched_turn t (w, status) wk)) =
    trace (fst (update_status_line w status))
      ++ [EvRender (snd (update_status_line w status)); EvSleep t].
Proof.
  unfold sched_turn.
  destruct (update_status_line w status) as [w1 s1]. cbn [fst snd].
  unfold sleep, json_print_status_line. cbn zeta.
  destruct (delivered wk); cbn [handler set_caughtsig];
    destruct (negb (unslept wk =? 0));
    try destruct (_ =? SIGIO); cbn; by rewrite <- app_assoc.
Qed.

Lemma sched_loop_sleeps t wakes : ∀ w status,
  wf_status status →
  ∃ evs, trace (fst (foldl (sched_turn t) (w, status) wakes)) = trace w ++ evs ∧
         length (sleeps evs) = length wakes.
Proof.
  induction wakes as [|wk wakes IH]; intros w status Hwf.
  - exists []. by rewrite app_nil_r.
  - cbn [foldl].
    pose proof (sched_turn_trace t w status wk) as Ht.
    destruct (update_status_line_inv w status Hwf) as (_ & _ & _ & _ & Htr & _).
    destruct (sched_turn_inv t w status wk Hwf) as (Hwf1 & _).
    destruct (sched_turn t (w, status) wk) as [w1 s1]. cbn [fst snd] in *.
    destruct (IH w1 s1 Hwf1) as (evs & Hevs & Hlen).
    eexists. split.
    + rewrite Hevs, Ht, Htr, <- !app_assoc. done.
    + rewrite !sleeps_app, sleeps_pass_events, !length_app, Hlen. done.
Qed.

(** X17.  In a run from a well-formed status line every turn renders
    once and sleeps once, and every sleep lasts what [longest_sleep]
    gave for the status line the run started from. *)
Theorem run_sleeps_longest_sleep (w : world) (status : status_line)
    (wakes : list wake) :
  wf_status status →
  ∃ evs, trace (fst (sched_start w status wakes)) = trace w ++ evs ∧
    (∀ t, EvSleep t ∈ evs → t = longest_sleep status) ∧
    length (sleeps evs) = length wakes ∧
    length (renders evs) = length wakes.
Proof.
  intros Hwf. unfold sched_start. cbn zeta.
  destruct (sched_loop_inv (longest_sleep status) wakes w status Hwf)
    as (_ & _ & _ & evs & Htr & (_ & _ & Hs) & Hr).
  destruct (sched_loop_sleeps (longest_sleep status) wakes w status Hwf)
    as (evs' & Htr' & Hsl).
  assert (evs' = evs) as -> by (eapply app_inv_head; by rewrite <- Htr, <- Htr').
  by exists evs.
Qed.

(** The wake reason a turn leaves behind. *)
Lemma sched_turn_caughtsig t w status wk :
  0 ≤ caughtsig w →
  caughtsig (fst (sched_turn t (w, status) wk)) =
    match delivered wk with Some s => s | None => 0 end.
Proof.
  intros Hs. unfold sched_turn.
  pose proof (update_status_line_frame w status) as (_ & _ & Hc).
  destruct (update_status_line w status) as [w1 s1]. cbn [fst snd] in *.
  assert (caughtsig w1 = 0)
    by (rewrite Hc; destruct (Z.ltb_spec 0 (caughtsig w)); lia).
  unfold sleep, json_print_status_line. cbn zeta.
  destruct (delivered wk); cbn [handler set_caughtsig emit caughtsig];
    destruct (negb (unslept wk =? 0));
    try destruct (_ =? SIGIO); cbn; done.
Qed.

(** X18.  After a turn entered with a non-negative [caughtsig], the
    wake reason is the signal delivered during that turn's sleep, and
    none if no signal was delivered: what was caught before the turn
    is gone. *)
Theorem turn_leaves_delivered_signal (t : Z) (w : world)
    (status : status_line) (wk : wake) :
  0 ≤ caughtsig w →
  caughtsig (fst (sched_turn t (w, status) wk)) =
    match delivered wk with Some s => s | None => 0 end.
Proof. apply sched_turn_caughtsig. Qed.

(** X19.  Through a run in which every delivered signal has a
    positive number, [caughtsig] never becomes negative. *)
Theorem run_keeps_caughtsig_nonneg (w : world) (status : status_line)
    (wakes : list wake) :
  signals_positive wakes →
  0 ≤ caughtsig w →
  0 ≤ caughtsig (fst (sched_start w status wakes)).
Proof. intros. unfold sched_start. by apply sched_loop_caughtsig. Qed.

(** X20.  A turn entered with a non-negative [caughtsig] reads a click
    exactly when its sleep is cut short and the signal delivered
    during that sleep is [SIGIO]; otherwise the status line of the
    pass is kept as it is. *)
Theorem click_read_only_on_sigio (t : Z) (w : world) (status : status_line)
    (wk : wake) :
  0 ≤ caughtsig w →
  SIGIO ≠ 0 →
  let s1 := snd (update_status_line w status) in
  (unslept wk ≠ 0 ∧ delivered wk = Some SIGIO →
     snd (sched_turn t (w, status) wk) = handle_click (input wk) s1) ∧
  (unslept wk = 0 ∨ delivered wk ≠ Some SIGIO →
     snd (sched_turn t (w, status) wk) = s1).
Proof.
  intros Hs Hio s1. subst s1. unfold sched_turn.
  pose proof (update_status_line_frame w status) as (_ & _ & Hc).
  destruct (update_status_line w status) as [w1 s1]. cbn [fst snd] in *.
  assert (Hz : caughtsig w1 = 0)
    by (rewrite Hc; destruct (Z.ltb_spec 0 (caughtsig w)); lia).
  unfold sleep, json_print_status_line. cbn zeta.
  split.
  - intros [Hu ->]. apply Z.eqb_neq in Hu. rewrite Hu.
    cbn [negb handler set_caughtsig caughtsig]. by rewrite Z.eqb_refl.
  - intros Hcase. destruct (Z.eqb_spec (unslept wk) 0) as [|Hu]; [done|].
    cbn [negb]. destruct Hcase as [|Hd]; [done|].
    destruct (delivered wk) as [s|]; cbn [handler set_caughtsig emit caughtsig].
    + destruct (Z.eqb_spec s SIGIO) as [->|]; [done|done].
    + rewrite Hz. by destruct (Z.eqb_spec 0 SIGIO).
Qed.

(** X21.  A signal delivered during a sleep refreshes, in the pass of
    the next turn, every block that has a command and whose runtime
    copy is configured with that signal. *)
Theorem signal_refreshes_next_turn (t : Z) (w : world) (status : status_line)
    (wk : wake) (s : Z) (i : nat) :
  wf_status status →
  0 ≤ caughtsig w →
  delivered wk = Some s →
  s ≠ 0 →
  let ws1 := sched_turn t (w, status) wk in
  (i < num status)%nat →
  command (at_index (blocks status) i) ≠ "" →
  signal (at_index (updated_blocks (snd ws1)) i) = s →
  ∃ evs, trace (fst (update_status_line (fst ws1) (snd ws1)))
           = trace (fst ws1) ++ evs ∧
         EvUpdate i (dispatch_arg (snd ws1) i) ∈ evs.
Proof.
  intros Hwf Hs Hd Hnz ws1 Hi Hcmd Hsig.
  pose proof (sched_turn_caughtsig t w status wk Hs) as Hc.
  rewrite Hd in Hc. fold ws1 in Hc.
  destruct (sched_turn_inv t w status wk Hwf) as (Hwf1 & Hb1 & Hn1 & _).
  fold ws1 in Hwf1, Hb1, Hn1.
  destruct (update_status_line_inv (fst ws1) (snd ws1) Hwf1)
    as (_ & _ & _ & _ & Htr & _).
  eexists. split; [exact Htr|].
  apply elem_of_pass_events. split; [lia|]. split; [|done].
  apply dispatched_when.
  - rewrite Hb1. destruct (nonempty _) eqn:Hne; [done|].
    by apply nonempty_spec in Hne.
  - cbn zeta. right. rewrite Hc, Hsig. split; [done|]. by left.
Qed.

(** X22.  Well-formedness of the status line (both arrays of length
    [num]) is kept by a pass, by the handling of a click and by a
    whole run. *)
Theorem wf_status_preserved (w : world) (status : status_line)
    (input : list ascii) (wakes : list wake) :
  wf_status status →
  wf_status (snd (update_status_line w status)) ∧
  wf_status (handle_click input status) ∧
  wf_status (snd (sched_start w status wakes)).
Proof.
  intros Hwf. split; [by apply update_status_line_wf|].
  split; [by apply handle_click_wf|].
  unfold sched_start.
  by destruct (sched_loop_inv (longest_sleep status) wakes w status Hwf)
    as (Hwf' & _).
Qed.

End LoopMore.

(** ** Properties of the start-up code *)

Section StartupFacts.
Context {E : Externals} {P : Posix}.

Ltac run_startup :=
  unfold sched_init, sched_event_stdin, sched_use_signal, sigaction, isatty,
    getpid, fcntl_setown, fcntl_getfl, fcntl_setfl, errorx, error,
    mbind, sys_bind, mret, sys_ret;
  cbn beta iota.

Ltac flatten_log :=
  rewrite <- ?app_assoc in *; cbn [app] in *.

Ltac close_path lem :=
  do 2 eexists; split; [|apply lem; done]; flatten_log; done.

(** Every run of [sched_init] follows one of the ways of
    [startup_path]. *)
Lemma sched_init_paths log0 :
  ∃ r evs, sched_init log0 = (r, log0 ++ evs) ∧ startup_path log0 r evs.
Proof.
  run_startup.
  destruct (Z.eqb_spec (sigaction_result log0 SIGUSR1) (-1)) as [H1|H1];
    cbn [negb Z.eqb]; [close_path path_usr1_fails|].
  destruct (Z.eqb_spec (sigaction_result (log0 ++ [Sigaction SIGUSR1 SA_RESTART])
                          SIGUSR2) (-1)) as [H2|H2];
    cbn [negb Z.eqb]; [close_path path_usr2_fails|].
  flatten_log.
  match goal with |- context [isatty_result ?l ?fd =? 0] =>
    destruct (Z.eqb_spec (isatty_result l fd) 0) as [Ht|Ht] end;
    [|close_path path_terminal].
  flatten_log.
  match goal with |- context [sigaction_result ?l SIGIO =? -1] =>
    destruct (Z.eqb_spec (sigaction_result l SIGIO) (-1)) as [H3|H3] end;
    cbn [negb Z.eqb]; [close_path path_sigio_fails|].
  flatten_log.
  match goal with |- context [setown_result ?l ?fd ?pid =? -1] =>
    destruct (Z.eqb_spec (setown_result l fd pid) (-1)) as [H4|H4] end;
    cbn [negb Z.eqb]; flatten_log; [close_path path_setown_fails|].
  match goal with |- context [setfl_result ?l ?fd ?arg =? -1] =>
    destruct (Z.eqb_spec (setfl_result l fd arg) (-1)) as [H5|H5] end;
    cbn [negb Z.eqb]; flatten_log;
    [close_path path_setfl_fails | close_path path_ready].
Qed.

Ltac in_list H :=
  cbn [app take] in H;
  repeat (apply elem_of_cons in H as [H|H]);
  [..|by apply elem_of_nil in H].

(** X23.  [sched_init] returns 0 or 1, and it returns 1 exactly when
    it has reported an error: no failure is silent and no success
    comes with a report. *)
Theorem sched_init_reports_failure (log0 : list syscall) :
  ∃ evs, snd (sched_init log0) = log0 ++ evs ∧
    ((fst (sched_init log0) = 0 ∧ existsb is_error evs = false) ∨
     (fst (sched_init log0) = 1 ∧ existsb is_error evs = true)).
Proof.
  destruct (sched_init_paths log0) as (r & evs & Heq & Hpath).
  rewrite Heq. exists evs. split; [done|].
  destruct Hpath; cbn; auto.
Qed.

(** X24.  [sched_init] stops at the first failure: once an error is
    reported, nothing but further reports follows. *)
Theorem sched_init_stops_at_error (log0 : list syscall) :
  ∃ evs, snd (sched_init log0) = log0 ++ evs ∧ stops_at_error evs = true.
Proof.
  destruct (sched_init_paths log0) as (r & evs & Heq & Hpath).
  rewrite Heq. exists evs. split; [done|].
  destruct Hpath; reflexivity.
Qed.

(** X25.  When standard input is a terminal, start-up asks for the
    handlers of [SIGUSR1] and [SIGUSR2] and for nothing else: no
    [SIGIO] handler, no [fcntl] on standard input. *)
Theorem sched_init_on_terminal (log0 : list syscall) :
  isatty_result
    (log0 ++ [Sigaction SIGUSR1 SA_RESTART; Sigaction SIGUSR2 SA_RESTART])
    STDIN_FILENO ≠ 0 →
  ∃ evs, snd (sched_init log0) = log0 ++ evs ∧
    ∀ c, c ∈ evs →
      is_error c = true ∨ c = Sigaction SIGUSR1 SA_RESTART ∨
      c = Sigaction SIGUSR2 SA_RESTART ∨ c = Isatty STDIN_FILENO.
Proof.
  intros Htty.
  destruct (sched_init_paths log0) as (r & evs & Heq & Hpath).
  rewrite Heq. exists evs. split; [done|].
  destruct Hpath; try (cbn [take] in *; congruence);
    intros c Hin; in_list Hin; subst c; cbn; auto.
Qed.

(** X26.  Start-up begins with the handler for [SIGUSR1], and every
    handler it asks for is for [SIGUSR1], [SIGUSR2] or [SIGIO] and is
    installed with [SA_RESTART]. *)
Theorem sched_init_handlers (log0 : list syscall) :
  ∃ evs, snd (sched_init log0) = log0 ++ evs ∧
    head evs = Some (Sigaction SIGUSR1 SA_RESTART) ∧
    ∀ sig fl, Sigaction sig fl ∈ evs →
      fl = SA_RESTART ∧ (sig = SIGUSR1 ∨ sig = SIGUSR2 ∨ sig = SIGIO).
Proof.
  destruct (sched_init_paths log0) as (r & evs & Heq & Hpath).
  rewrite Heq. exists evs. split; [done|].
  destruct Hpath; (split; [done|]);
    intros sig fl Hin; in_list Hin; inversion Hin; subst; auto.
Qed.

Lemma lor_keeps_bits f a n :
  let arg := Z.lor (Z.lor f a) n in
  Z.land arg f = f ∧ Z.land arg a = a ∧ Z.land arg n = n.
Proof.
  cbn zeta. repeat split; apply Z.bits_inj'; intros k _;
    rewrite Z.land_spec, !Z.lor_spec;
    destruct (Z.testbit f k), (Z.testbit a k), (Z.testbit n k); done.
Qed.

(** X27.  When [sched_init] returns 0 it has either found standard
    input to be a terminal right after the two user handlers, or
    gone on to install the [SIGIO] handler, make the process the owner
    of standard input and set the flags [F_GETFL] gave with [O_ASYNC]
    and [O_NONBLOCK] added and none removed, in this order. *)
Theorem sched_init_success (log0 : list syscall) :
  fst (sched_init log0) = 0 →
  let pre := [ Sigaction SIGUSR1 SA_RESTART; Sigaction SIGUSR2 SA_RESTART;
               Isatty STDIN_FILENO ] in
  snd (sched_init log0) = log0 ++ pre ∨
  ∃ pid flags arg,
    snd (sched_init log0) =
      log0 ++ pre ++ [ Sigaction SIGIO SA_RESTART; Getpid;
                       FcntlSetown STDIN_FILENO pid;
                       FcntlGetfl STDIN_FILENO;
                       FcntlSetfl STDIN_FILENO arg ] ∧
    pid = getpid_result (log0 ++ pre ++ [Sigaction SIGIO SA_RESTART]) ∧
    flags = getfl_result
              (log0 ++ pre ++ [ Sigaction SIGIO SA_RESTART; Getpid;
                                FcntlSetown STDIN_FILENO pid ])
              STDIN_FILENO ∧
    arg = Z.lor (Z.lor flags O_ASYNC) O_NONBLOCK ∧
    Z.land arg flags = flags ∧
    Z.land arg O_ASYNC = O_ASYNC ∧
    Z.land arg O_NONBLOCK = O_NONBLOCK.
Proof.
  destruct (sched_init_paths log0) as (r & evs & Heq & Hpath).
  rewrite Heq. cbn [fst snd]. intros ->. cbn zeta.
  inversion Hpath; subst; [by left|]. right.
  do 3 eexists. split; [reflexivity|]. split; [reflexivity|].
  split; [reflexivity|]. split; [reflexivity|]. apply lor_keeps_bits.
Qed.

(** X28.  The result of [F_GETFL] is used unchecked: whenever the
    flags are read, the next call sets them to what was read with
    [O_ASYNC] and [O_NONBLOCK] added, whatever was read. *)
Theorem sched_init_getfl_unchecked (log0 : list syscall) (fd : Z) :
  ∃ evs, snd (sched_init log0) = log0 ++ evs ∧
    (FcntlGetfl fd ∈ evs →
     ∃ pre post,
       evs = pre ++ FcntlGetfl fd
                 :: FcntlSetfl fd
                      (Z.lor (Z.lor (getfl_result (log0 ++ pre) fd) O_ASYNC)
                             O_NONBLOCK)
                 :: post).
Proof.
  destruct (sched_init_paths log0) as (r & evs & Heq & Hpath).
  rewrite Heq. exists evs. split; [done|].
  destruct Hpath; intros Hin; in_list Hin; try discriminate;
    inversion Hin; subst fd.
  - eexists [_; _; _; _; _; _], _. cbn [app]. reflexivity.
  - eexists [_; _; _; _; _; _], _. cbn [app]. reflexivity.
Qed.

End StartupFacts.

(** ** The further statements at concrete inputs *)

Lemma gcd_up_to_sign_witness :
  (gcd 4 (-6) = None ↔ (4 = INT_MIN ∧ -6 = -1) ∨ (4 = -1 ∧ -6 = INT_MIN)) ∧
  (∀ g, gcd 4 (-6) = Some g → Z.abs g = Z.gcd 4 (-6)).
Proof.
  apply (gcd_up_to_sign 4 (-6)); unfold INT_MIN, INT_MAX; lia.
Defined.

Lemma longest_sleep_within_interval_witness :
  0 < longest_sleep Demo.three ≤ 4.
Proof.
  apply (longest_sleep_within_interval Demo.three
           (Demo.mk_block "vol" "master" "amixer" 4 0 0 Demo.no_click)).
  - split; reflexivity.
  - repeat (constructor; [unfold INT_MAX; cbn; lia|]). constructor.
  - apply elem_of_cons. by left.
  - cbn. lia.
Defined.

Lemma longest_sleep_permutation_witness :
  longest_sleep Demo.three = longest_sleep DemoStartup.three_shuffled.
Proof.
  apply (longest_sleep_permutation Demo.three DemoStartup.three_shuffled).
  - split; reflexivity.
  - split; reflexivity.
  - repeat (constructor; [unfold INT_MAX; cbn; lia|]). constructor.
  - exact (Permutation_app_comm
             [ Demo.mk_block "vol" "master" "amixer" 4 0 0 Demo.no_click;
               Demo.mk_block "vol" "" "" 6 0 0 Demo.no_click ]
             [ Demo.mk_block "sig" "" "uptime" 0 10 0 Demo.no_click ]).
Defined.

Lemma outdated_plain_witness :
  let E := Demo.platform 1010 in
  outdated (fst (need_update_checks initial_world Demo.due_block)) = true ↔
  last_update Demo.due_block + interval Demo.due_block
    ≤ clock (ticks initial_world).
Proof.
  intros E.
  apply (outdated_plain (E := E) initial_world Demo.due_block).
  - cbn; lia.
  - cbn; lia.
  - cbn; lia.
  - cbn; lia.
Defined.

Lemma pass_dispatches_witness :
  let E := Demo.platform 5 in
  ∃ evs, trace (fst (update_status_line initial_world Demo.three))
           = trace initial_world ++ evs ∧
         EvUpdate 2 (dispatch_arg Demo.three 2) ∈ evs.
Proof.
  intros E.
  apply (pass_dispatches (E := E) initial_world Demo.three 2).
  - split; reflexivity.
  - cbn; lia.
  - discriminate.
  - left. reflexivity.
Defined.

Lemma quiet_pass_changes_nothing_witness :
  let E := Demo.platform 5 in
  update_status_line initial_world DemoStartup.idle
  = (initial_world, DemoStartup.idle).
Proof.
  intros E.
  apply (quiet_pass_changes_nothing (E := E) initial_world DemoStartup.idle).
  - reflexivity.
  - intros i Hi. cbn in Hi.
    destruct i as [|[|i]]; [left; reflexivity | right | lia].
    split; [discriminate | reflexivity].
Defined.

Lemma pass_updates_in_order_witness :
  let E := Demo.platform 5 in
  ∃ evs, trace (fst (update_status_line initial_world Demo.three))
           = trace initial_world ++ evs ∧
         StronglySorted lt (update_indices evs) ∧
         Forall (λ i, (i < num Demo.three)%nat) (update_indices evs) ∧
         length evs = length (update_indices evs).
Proof.
  intros E.
  apply (pass_updates_in_order (E := E) initial_world Demo.three).
  split; reflexivity.
Defined.

Lemma click_reaches_update_witness :
  let E := Demo.platform 5 in
  let post := update_status_line (World 29 0 [])
                (handle_click DemoStartup.master_click Demo.three) in
  ∃ evs, trace (fst post) = trace (World 29 0 []) ++ evs ∧
    EvUpdate 0 (set_bclick (at_index (blocks Demo.three) 0)
                  (p_click (read_click DemoStartup.master_click))) ∈ evs ∧
    ∃ b, updated_blocks (snd post) !! 0%nat = Some b ∧ bclick b = zero_click.
Proof.
  intros E.
  apply (click_reaches_update (E := E) DemoStartup.master_click
           (World 29 0 []) Demo.three 0).
  - split; reflexivity.
  - cbn; lia.
  - intros [H _]. vm_compute in H. discriminate.
  - split; reflexivity.
  - intros j Hj. lia.
  - discriminate.
  - cbn; lia.
  - reflexivity.
Defined.

Lemma nameless_click_dropped_witness :
  let E := Demo.platform 5 in
  click_name DemoStartup.nameless_click = "" ∧
  click_instance DemoStartup.nameless_click = "" ∧
  handle_click DemoStartup.nameless_click Demo.three = Demo.three.
Proof.
  intros E.
  apply (nameless_click_dropped (E := E) DemoStartup.nameless_click Demo.three).
  - reflexivity.
  - reflexivity.
Defined.

Lemma click_strings_are_spans_witness :
  let E := Demo.platform 5 in
  click_name Demo.vol_click =
    string_of_list_ascii (take 3 (drop 10 (fread_json Demo.vol_click))) ∧
  click_instance Demo.vol_click =
    string_of_list_ascii (take 0 (drop 27 (fread_json Demo.vol_click))).
Proof.
  intros E.
  apply (click_strings_are_spans (E := E) Demo.vol_click).
  - vm_compute; discriminate.
  - vm_compute; discriminate.
  - vm_compute; reflexivity.
  - vm_compute; discriminate.
  - vm_compute; discriminate.
  - vm_compute; reflexivity.
  - right. vm_compute; discriminate.
  - left. vm_compute; reflexivity.
  - vm_compute. repeat constructor; discriminate.
  - vm_compute. constructor.
Defined.

Lemma copy_len_by_cases_witness :
  let E := Demo.platform 5 in
  copy_len 1 2 = Z.to_nat 1 ∧ copy_len (-1) 2 = (2 - 1)%nat.
Proof.
  intros E.
  destruct (copy_len_by_cases (E := E) 1 2) as [H1 _];
    [cbn; lia | lia | cbn; lia |].
  destruct (copy_len_by_cases (E := E) (-1) 2) as [_ H2];
    [cbn; lia | lia | cbn; lia |].
  split; [apply H1; lia | apply H2; cbn; lia].
Defined.

Lemma run_sleeps_longest_sleep_witness :
  let E := Demo.platform 5 in
  ∃ evs, trace (fst (sched_start initial_world Demo.three Demo.two_wakes))
           = trace initial_world ++ evs ∧
    (∀ t, EvSleep t ∈ evs → t = longest_sleep Demo.three) ∧
    length (sleeps evs) = length Demo.two_wakes ∧
    length (renders evs) = length Demo.two_wakes.
Proof.
  intros E.
  apply (run_sleeps_longest_sleep (E := E) initial_world Demo.three
           Demo.two_wakes).
  split; reflexivity.
Defined.

Lemma turn_leaves_delivered_signal_witness :
  let E := Demo.platform 5 in
  caughtsig (fst (sched_turn 2 (World 10 0 [], Demo.three)
                             (Wake (Some 29) 1 Demo.vol_click))) = 29.
Proof.
  intros E.
  apply (turn_leaves_delivered_signal (E := E) 2 (World 10 0 []) Demo.three
           (Wake (Some 29) 1 Demo.vol_click)).
  cbn. lia.
Defined.

Lemma run_keeps_caughtsig_nonneg_witness :
  let E := Demo.platform 5 in
  0 ≤ caughtsig (fst (sched_start initial_world Demo.three Demo.two_wakes)).
Proof.
  intros E.
  apply (run_keeps_caughtsig_nonneg (E := E) initial_world Demo.three
           Demo.two_wakes).
  - repeat constructor; cbn; intros s Hs; inversion Hs; lia.
  - cbn. lia.
Defined.

Lemma click_read_only_on_sigio_witness :
  let E := Demo.platform 5 in
  snd (sched_turn 2 (initial_world, Demo.three)
                  (Wake (Some 29) 1 Demo.vol_click))
    = handle_click Demo.vol_click
        (snd (update_status_line initial_world Demo.three)) ∧
  snd (sched_turn 2 (initial_world, Demo.three)
                  (Wake (Some 10) 1 Demo.vol_click))
    = snd (update_status_line initial_world Demo.three).
Proof.
  intros E. split.
  - apply (click_read_only_on_sigio (E := E) 2 initial_world Demo.three
             (Wake (Some 29) 1 Demo.vol_click)).
    + cbn; lia.
    + cbn; lia.
    + split; [cbn; lia | reflexivity].
  - apply (click_read_only_on_sigio (E := E) 2 initial_world Demo.three
             (Wake (Some 10) 1 Demo.vol_click)).
    + cbn; lia.
    + cbn; lia.
    + right. cbn. intros H. inversion H.
Defined.

Lemma signal_refreshes_next_turn_witness :
  let E := Demo.platform 5 in
  let ws1 := sched_turn 2 (initial_world, Demo.three) (Wake (Some 10) 1 []) in
  ∃ evs, trace (fst (update_status_line (fst ws1) (snd ws1)))
           = trace (fst ws1) ++ evs ∧
         EvUpdate 2 (dispatch_arg (snd ws1) 2) ∈ evs.
Proof.
  intros E.
  apply (signal_refreshes_next_turn (E := E) 2 initial_world Demo.three
           (Wake (Some 10) 1 []) 10 2).
  - split; reflexivity.
  - cbn; lia.
  - reflexivity.
  - lia.
  - cbn; lia.
  - discriminate.
  - reflexivity.
Defined.

Lemma wf_status_preserved_witness :
  let E := Demo.platform 5 in
  wf_status (snd (update_status_line initial_world Demo.three)) ∧
  wf_status (handle_click Demo.vol_click Demo.three) ∧
  wf_status (snd (sched_start initial_world Demo.three Demo.two_wakes)).
Proof.
  intros E.
  apply (wf_status_preserved (E := E) initial_world Demo.three Demo.vol_click
           Demo.two_wakes).
  split; reflexivity.
Defined.

Lemma sched_init_on_terminal_witness :
  let E := Demo.platform 5 in
  let P := DemoStartup.linux 1 in
  ∃ evs, snd (sched_init []) = [] ++ evs ∧
    ∀ c, c ∈ evs →
      is_error c = true ∨ c = Sigaction SIGUSR1 SA_RESTART ∨
      c = Sigaction SIGUSR2 SA_RESTART ∨ c = Isatty STDIN_FILENO.
Proof.
  intros E P.
  apply (sched_init_on_terminal (E := E) (P := P) []).
  cbn. lia.
Defined.

Lemma sched_init_success_witness :
  let E := Demo.platform 5 in
  let P := DemoStartup.linux 0 in
  let pre := [ Sigaction SIGUSR1 SA_RESTART; Sigaction SIGUSR2 SA_RESTART;
               Isatty STDIN_FILENO ] in
  snd (sched_init []) = [] ++ pre ∨
  ∃ pid flags arg,
    snd (sched_init []) =
      [] ++ pre ++ [ Sigaction SIGIO SA_RESTART; Getpid;
                     FcntlSetown STDIN_FILENO pid;
                     FcntlGetfl STDIN_FILENO;
                     FcntlSetfl STDIN_FILENO arg ] ∧
    pid = getpid_result ([] ++ pre ++ [Sigaction SIGIO SA_RESTART]) ∧
    flags = getfl_result
              ([] ++ pre ++ [ Sigaction SIGIO SA_RESTART; Getpid;
                              FcntlSetown STDIN_FILENO pid ])
              STDIN_FILENO ∧
    arg = Z.lor (Z.lor flags O_ASYNC) O_NONBLOCK ∧
    Z.land arg flags = flags ∧
    Z.land arg O_ASYNC = O_ASYNC ∧
    Z.land arg O_NONBLOCK = O_NONBLOCK.
Proof.
  intros E P.
  apply (sched_init_success (E := E) (P := P) []).
  reflexivity.
Defined.

(** Start-up on a pipe, every call succeeding: the handlers for
    signals 10, 12 and 29, then the owner and the flags
    [2 | O_ASYNC | O_NONBLOCK]. *)
Example sched_init_on_pipe :
  let E := Demo.platform 5 in
  let P := DemoStartup.linux 0 in
  sched_init [] =
    (0, [ Sigaction 10 268435456; Sigaction 12 268435456; Isatty 0;
          Sigaction 29 268435456; Getpid; FcntlSetown 0 4242;
          FcntlGetfl 0; FcntlSetfl 0 10242 ]).
Proof. reflexivity. Qed.
